(** * babel-plugin-import-to-await-require: the matching and rewrite engine

    A shallow embedding of
    [packages/babel-plugin-import-to-await-require/src/index.ts]:
    the path matcher ([getAlias], [isMatchLib], [getPath]), the specifier
    projection ([specifiersToProperties]) and the two visitors
    ([Program.exit], [CallExpression.exit]), followed by the properties of
    the plugin's specification that were checked against them.

    Modelling conventions.
    - A JavaScript string is a [string]; comparisons, [startsWith],
      [endsWith] and the two literal regular expressions work unit by unit,
      so nothing depends on the character set.
    - An alias object ([IAlias]) is the list of its entries in the order
      [Object.keys] enumerates them; [for (const key of Object.keys(o))]
      with [o[key]] walks that list.
    - [exportAllMembers] is a plain object: a finite map from module
      reference to member names for its own properties, over the
      properties every object inherits from [Object.prototype].
    - A function that can [throw] returns a [Result].
    - [extname] and [isAbsolute] are Node's [path] functions in their POSIX
      variant. *)

From Stdlib Require Import ZArith Ascii.
From stdpp Require Import base option list strings gmap.

Set Warnings "-register-all".

(** ** Results of code that may throw *)

(** What is thrown: [new Error(message)] by the plugin itself, or a
    [TypeError] raised by the engine or by a Babel builder (its message
    depends on the engine and is not kept). *)
Inductive Exception : Type :=
| Error (message : string)
| TypeError.

Coercion Error : string >-> Exception.

Inductive Result (A : Type) : Type :=
| Ok (a : A)
| Throw (e : Exception).
Arguments Ok {A} a.
Arguments Throw {A} e.

(** ** JavaScript string primitives *)

Module Js.

(** [s.startsWith(p)] *)
Definition startsWith (s p : string) : bool := String.prefix p s.

(** [s.endsWith(p)] *)
Definition endsWith (s p : string) : bool :=
  let n := String.length s in
  let m := String.length p in
  if m <=? n then String.eqb (String.substring (n - m) m s) p else false.

(** [s.charAt(i)], with the empty string out of range. *)
Definition charAt (s : string) (i : nat) : string :=
  match String.get i s with
  | Some c => String c EmptyString
  | None => EmptyString
  end.

(** [s.slice(i, j)] for [0 <= i] and [0 <= j]. *)
Definition slice (s : string) (i j : Z) : string :=
  String.substring (Z.to_nat i) (Z.to_nat (j - i)) s.

(** [s] has an occurrence of [needle]: what [/needle/.test(s)] computes for
    a pattern made of literal characters only. *)
Fixpoint includes (s needle : string) : bool :=
  String.prefix needle s ||
  match s with
  | EmptyString => false
  | String _ s' => includes s' needle
  end.

(** The replacement text of [String.prototype.replace] when the pattern is
    a string (ECMAScript [GetSubstitution] without captures): in the
    template, [$$] stands for a dollar sign, [$&] for the matched text,
    [$`] for the text before the match and [$'] for the text after it;
    every other character, a lone [$] included, stands for itself. *)
Fixpoint GetSubstitution (matched before after template : string) : string :=
  match template with
  | EmptyString => EmptyString
  | String c rest =>
      if Ascii.eqb c "$" then
        match rest with
        | String c' rest' =>
            if Ascii.eqb c' "$" then
              String "$" (GetSubstitution matched before after rest')
            else if Ascii.eqb c' "`" then
              before +:+ GetSubstitution matched before after rest'
            else if Ascii.eqb c' "&" then
              matched +:+ GetSubstitution matched before after rest'
            else if Ascii.eqb c' "'" then
              after +:+ GetSubstitution matched before after rest'
            else String c (GetSubstitution matched before after rest)
        | EmptyString => String c EmptyString
        end
      else String c (GetSubstitution matched before after rest)
  end.

(** [s.replace(searchValue, replaceValue)] with two strings: only the first
    occurrence is replaced. *)
Definition replace (s searchValue replaceValue : string) : string :=
  match String.index 0 searchValue s with
  | None => s
  | Some pos =>
      let stop := pos + String.length searchValue in
      let before := String.substring 0 pos s in
      let after := String.substring stop (String.length s - stop) s in
      before +:+ GetSubstitution searchValue before after replaceValue +:+ after
  end.

End Js.

(** ** Node's [path] module, POSIX variant *)

Module NodePath.
Local Open Scope Z_scope.

(** [isAbsolute(path)]: [path.length > 0 && path.charCodeAt(0) === 47]. *)
Definition isAbsolute (path : string) : bool :=
  match path with
  | String c _ => Ascii.eqb c "/"
  | EmptyString => false
  end.

(** The backward scan of [extname]: [n] is [i + 1] for the loop variable
    [i]; the result is [(startDot, startPart, end, preDotState)] when the
    loop is left, by [break] or at [i < 0]. *)
Fixpoint extname_loop (path : string) (n : nat)
    (startDot startPart end_ : Z) (matchedSlash : bool) (preDotState : Z)
    : Z * Z * Z * Z :=
  match n with
  | O => (startDot, startPart, end_, preDotState)
  | S i =>
      match String.get i path with
      | None => (startDot, startPart, end_, preDotState)
      | Some code =>
          if Ascii.eqb code "/" then
            if negb matchedSlash then
              (startDot, Z.of_nat i + 1, end_, preDotState)
            else
              extname_loop path i startDot startPart end_ matchedSlash preDotState
          else
            let '(matchedSlash, end_) :=
              if end_ =? -1 then (false, Z.of_nat i + 1)
              else (matchedSlash, end_) in
            if Ascii.eqb code "." then
              if startDot =? -1 then
                extname_loop path i (Z.of_nat i) startPart end_ matchedSlash preDotState
              else if negb (preDotState =? 1) then
                extname_loop path i startDot startPart end_ matchedSlash 1
              else
                extname_loop path i startDot startPart end_ matchedSlash preDotState
            else if negb (startDot =? -1) then
              extname_loop path i startDot startPart end_ matchedSlash (-1)
            else
              extname_loop path i startDot startPart end_ matchedSlash preDotState
      end
  end.

(** [extname(path)] *)
Definition extname (path : string) : string :=
  let '(startDot, startPart, end_, preDotState) :=
    extname_loop path (String.length path) (-1) 0 (-1) true 0 in
  if (startDot =? -1) || (end_ =? -1) || (preDotState =? 0) ||
     ((preDotState =? 1) && (startDot =? end_ - 1) && (startDot =? startPart + 1))
  then EmptyString
  else Js.slice path startDot end_.

End NodePath.

(** ** PathMatcher *)

(** A regular expression is taken by what [test] answers on a string when
    its [lastIndex] is 0. Without the [g] and [y] flags that is what every
    call answers. With one of them ([keeps_lastIndex]) a call also moves
    [lastIndex], so a later call on the same object may answer otherwise;
    the model does not follow [lastIndex], and the properties that compare
    several match tests of one pattern are stated for patterns without
    these flags. *)
Record RegExp : Type := { keeps_lastIndex : bool; test : string → bool }.

(** A pattern of literal characters, without flags. *)
Definition literal (needle : string) : RegExp :=
  {| keeps_lastIndex := false; test := λ s, Js.includes s needle |}.

(** An entry of [libs]: the type says [RegExp | string]; at run time any
    value can sit there, and [isMatchLib] tells the three cases apart. *)
Inductive Lib : Type :=
| LibString (s : string)
| LibRegExp (r : RegExp)
| LibOther (tag : nat).

Definition TLibs : Type := list Lib.

(** [interface IAlias { [key: string]: string }], in [Object.keys] order. *)
Definition IAlias : Type := list (string * string).

Definition RE_NODE_MODULES : RegExp := literal "node_modules".
Definition RE_UMI_LOCAL_DEV : RegExp := literal "umi/packages/".

Definition isJSFile (path : string) : bool :=
  existsb (String.eqb (NodePath.extname path)) [".js"; ".jsx"; ".ts"; ".tsx"].

Definition addLastSlash (path : string) : string :=
  if Js.endsWith path "/" then path else path +:+ "/".

(** [getAlias({ path, webpackAlias })]; [None] is [null]. *)
Fixpoint getAlias (path : string) (webpackAlias : IAlias) : option string :=
  match webpackAlias with
  | [] => None
  | (key, value) :: rest =>
      let path' := if isJSFile value then key else addLastSlash key in
      if Js.startsWith path path' then Some value else getAlias path rest
  end.

(** [array.some(f)] for the callback of [isMatchLib]: stops at the first
    entry that answers [true], and at the first one that throws. *)
Fixpoint some_lib (path : string) (entries : list Lib) : Result bool :=
  match entries with
  | [] => Ok false
  | lib :: rest =>
      match lib with
      | LibString s => if String.eqb s path then Ok true else some_lib path rest
      | LibRegExp r => if test r path then Ok true else some_lib path rest
      | LibOther _ => Throw "Unsupported lib format."
      end
  end.

(** Truthiness of a [boolean | undefined]. *)
Definition truthy (b : option bool) : bool := default false b.

Definition isMatchLib (path : string) (libs : option TLibs)
    (matchAll : option bool) (alias webpackAlias : IAlias) : Result bool :=
  if truthy matchAll then
    if String.eqb path "umi" || String.eqb path "dumi" then Ok false
    else if NodePath.isAbsolute path then
      Ok (test RE_NODE_MODULES path || test RE_UMI_LOCAL_DEV path)
    else if String.eqb (Js.charAt path 0) "." then Ok false
    else
      match getAlias path webpackAlias with
      | Some (String _ _ as aliasPath) =>
          Ok (test RE_NODE_MODULES aliasPath || test RE_UMI_LOCAL_DEV aliasPath)
      | Some EmptyString | None =>
          (* [if (aliasPath)]: [null] and the empty string are falsy *)
          Ok true
      end
  else
    some_lib path (default [] libs ++ map LibString (map fst alias)).

Fixpoint getPath (path : string) (alias : IAlias) : string :=
  match alias with
  | [] => path
  | (key, value) :: rest =>
      if Js.startsWith path key then Js.replace path key value
      else getPath path rest
  end.

(** ** The syntax tree

    The part of Babel's AST the plugin reads or builds. *)

(** Expressions and binding patterns. An object property is the pair of its
    key and its value. *)
Inductive Expression : Type :=
| Identifier (name : string)
| StringLiteral (value : string)
| Import
| CallExpression (callee : Expression) (arguments : list Expression)
| AwaitExpression (argument : Expression)
| ObjectPattern (properties : list (Expression * Expression))
| OtherExpression (tag : nat).

Definition objectProperty (key value : Expression) : Expression * Expression :=
  (key, value).

(** The specifiers of import and export declarations; [local], [imported]
    and [exported] are the nodes that name the binding.
    [ExportNamespaceSpecifier] is the specifier of
    [export * as ns from 'x'], which Babel parses as a named export. *)
Inductive Specifier : Type :=
| ImportDefaultSpecifier (local : Expression)
| ImportNamespaceSpecifier (local : Expression)
| ImportSpecifier (local imported : Expression)
| ExportSpecifier (local exported : Expression)
| ExportDefaultSpecifier (exported : Expression)
| ExportNamespaceSpecifier (exported : Expression).

Record VariableDeclarator : Type :=
  variableDeclarator { id : Expression; init : Expression }.

(** Top-level statements. [source] is the value of the source literal,
    [None] when the node has no source ([null]). *)
Inductive Statement : Type :=
| ImportDeclaration (specifiers : list Specifier) (source : string)
| ExportAllDeclaration (source : option string)
| ExportNamedDeclaration (declaration : option Statement)
    (specifiers : list Specifier) (source : option string)
| VariableDeclaration (kind : string) (declarations : list VariableDeclarator)
| OtherStatement (tag : nat).

(** [t.exportNamedDeclaration(declaration)]: the builder's defaults are no
    specifier and no source. *)
Definition exportNamedDeclaration (declaration : Statement) : Statement :=
  ExportNamedDeclaration (Some declaration) [] None.

(** ** SpecifierProjector *)

Record Memo : Type :=
  { properties : list (Expression * Expression);
    namespaceIdentifier : option Expression }.

Definition push (memo : Memo) (p : Expression * Expression) : Memo :=
  {| properties := properties memo ++ [p];
     namespaceIdentifier := namespaceIdentifier memo |}.

(** [array.reduce(f, memo)] for a callback that may throw. *)
Fixpoint reduce {A B} (f : B → A → Result B) (l : list A) (memo : B) : Result B :=
  match l with
  | [] => Ok memo
  | x :: rest =>
      match f memo x with
      | Ok memo' => reduce f rest memo'
      | Throw e => Throw e
      end
  end.

(** The callback of the [reduce]. Its final [else] takes every remaining
    kind of specifier: for an import specifier it pushes
    [(imported, local)]; an [ExportNamespaceSpecifier] has neither field,
    and [t.objectProperty(undefined, undefined)] is refused by the
    builder's validation with a [TypeError]. *)
Definition project (memo : Memo) (s : Specifier) : Result Memo :=
  match s with
  | ImportDefaultSpecifier local =>
      Ok (push memo (objectProperty (Identifier "default") local))
  | ExportDefaultSpecifier exported =>
      Ok (push memo (objectProperty (Identifier "default") exported))
  | ExportSpecifier local exported =>
      Ok (push memo (objectProperty local exported))
  | ImportNamespaceSpecifier local =>
      Ok {| properties := properties memo; namespaceIdentifier := Some local |}
  | ImportSpecifier local imported =>
      Ok (push memo (objectProperty imported local))
  | ExportNamespaceSpecifier _ => Throw TypeError
  end.

Definition specifiersToProperties (specifiers : list Specifier) : Result Memo :=
  reduce project specifiers {| properties := []; namespaceIdentifier := None |}.

(** ** Options *)

Record IOpts : Type :=
  { libs : option TLibs;
    matchAll : option bool;
    remoteName : string;
    alias : option IAlias;
    webpackAlias : option IAlias;
    (** whether the optional callback is supplied *)
    onTransformDeps : bool;
    exportAllMembers : option (gmap string (list string)) }.

(** The object handed to [onTransformDeps]. *)
Record TransformDep : Type :=
  { dep_source : string;
    dep_file : string;
    dep_isMatch : bool;
    dep_isExportAllDeclaration : option bool }.

(** ** Visitors as state transformers

    A visitor mutates the tree it is given, calls [onTransformDeps] and may
    throw. Its state is the mutable tree [S] together with the invocations
    of the callback so far; an invocation is kept with the tree as it stood
    at the moment of the call, which is what the callback can observe. *)

Section Visitor.
Context {S : Type}.

Record Invocation : Type := { argument : TransformDep; seen : S }.

Record World : Type := { tree : S; calls : list Invocation }.

Definition M (A : Type) : Type := World → Result (A * World).

Definition ret {A} (a : A) : M A := λ w, Ok (a, w).

Definition bind {A B} (m : M A) (f : A → M B) : M B :=
  λ w, match m w with
       | Ok (a, w') => f a w'
       | Throw e => Throw e
       end.

Definition lift {A} (r : Result A) : M A :=
  λ w, match r with
       | Ok a => Ok (a, w)
       | Throw e => Throw e
       end.

Definition gets {A} (f : S → A) : M A := λ w, Ok (f (tree w), w).

Definition modify (f : S → S) : M unit :=
  λ w, Ok (tt, {| tree := f (tree w); calls := calls w |}).

(** [opts.onTransformDeps?.(dep)] *)
Definition notify (opts : IOpts) (dep : TransformDep) : M unit :=
  λ w, if onTransformDeps opts
       then Ok (tt, {| tree := tree w;
                       calls := calls w ++ [{| argument := dep; seen := tree w |}] |})
       else Ok (tt, w).

Definition when (b : bool) (m : M unit) : M unit := if b then m else ret tt.
End Visitor.

Arguments Invocation : clear implicits.
Arguments World : clear implicits.
Arguments M : clear implicits.

#[global] Instance visitor_ret {S} : MRet (M S) := @ret S.
#[global] Instance visitor_bind {S} : MBind (M S) := λ A B f m, bind m f.

(** ** ProgramPass: [Program.exit] *)

(** [b && x] for a boolean [b] and an object or [undefined] [x], as a
    condition: [Some] when truthy. *)
Definition guard_and {A} (b : bool) (x : option A) : option A :=
  if b then x else None.

(** The names every plain object inherits from [Object.prototype]. *)
Definition Object_prototype_keys : list string :=
  ["constructor"; "__defineGetter__"; "__defineSetter__"; "hasOwnProperty";
   "__lookupGetter__"; "__lookupSetter__"; "isPrototypeOf";
   "propertyIsEnumerable"; "toString"; "valueOf"; "__proto__";
   "toLocaleString"].

(** What a property read on [exportAllMembers] finds: an own property, the
    configured member list, or a property inherited from
    [Object.prototype] (a function, or the prototype itself for
    [__proto__]): truthy, and without a [map] method. *)
Inductive Found : Type :=
| Own (members : list string)
| Inherited.

(** [object?.[key]] on a plain object: an own property first, then the
    prototype; [None] is [undefined]. *)
Definition optional_lookup (object : option (gmap string (list string)))
    (key : string) : option Found :=
  match object with
  | Some o =>
      match o !! key with
      | Some members => Some (Own members)
      | None =>
          if bool_decide (key ∈ Object_prototype_keys) then Some Inherited
          else None
      end
  | None => None
  end.

(** [found.map(f)]: a [TypeError] when [found] has no [map] method. *)
Definition map_members {B} (f : string → B) (found : Found) : Result (list B) :=
  match found with
  | Own members => Ok (map f members)
  | Inherited => Throw TypeError
  end.

(** What the pass mutates: [path.node.body] and the local
    [variableDeclarations]. *)
Record Program : Type :=
  { body : list Statement; variableDeclarations : list Statement }.

(** [variableDeclarations.unshift(declaration)] *)
Definition unshift (declaration : Statement) : M Program unit :=
  modify (λ p, {| body := body p;
                  variableDeclarations := declaration :: variableDeclarations p |}).

(** [path.node.body.splice(index, 1)] *)
Definition splice (index : nat) : M Program unit :=
  modify (λ p, {| body := delete index (body p);
                  variableDeclarations := variableDeclarations p |}).

(** [path.node.body[index] = statement], also the effect of assigning to a
    field of the node held at [index]. *)
Definition assign (index : nat) (statement : Statement) : M Program unit :=
  modify (λ p, {| body := <[index := statement]> (body p);
                  variableDeclarations := variableDeclarations p |}).

(** The body of the [while] loop, for one value of [index]. The three [if]
    statements follow each other and all look at the node [d] read at the
    top. *)
Definition visit (opts : IOpts) (filename : string) (index : nat)
    : M Program unit :=
  d ← gets (λ p, body p !! index);
  match d with
  | Some (ImportDeclaration specifiers source) =>
      isMatch ← lift (isMatchLib source (libs opts) (matchAll opts)
                        (default [] (alias opts)) (default [] (webpackAlias opts)));
      notify opts {| dep_source := source; dep_file := filename;
                     dep_isMatch := isMatch;
                     dep_isExportAllDeclaration := None |};;
      when isMatch (
        memo ← lift (specifiersToProperties specifiers);
        let id := ObjectPattern (properties memo) in
        let init :=
          AwaitExpression (CallExpression Import
            [StringLiteral
               (remoteName opts +:+ "/" +:+ getPath source (default [] (alias opts)))]) in
        match namespaceIdentifier memo with
        | Some namespaceIdentifier =>
            when (negb (Nat.eqb (length (properties memo)) 0))
              (unshift (VariableDeclaration "const"
                          [variableDeclarator id namespaceIdentifier]));;
            unshift (VariableDeclaration "const"
                       [variableDeclarator namespaceIdentifier init])
        | None =>
            unshift (VariableDeclaration "const" [variableDeclarator id init])
        end;;
        splice index)
  | _ => ret tt
  end;;
  (* export * from 'foo'; *)
  match d with
  | Some (ExportAllDeclaration (Some source)) =>
      isMatch ← lift (isMatchLib source (libs opts) (matchAll opts)
                        (default [] (alias opts)) (default [] (webpackAlias opts)));
      notify opts {| dep_source := source; dep_file := filename;
                     dep_isMatch := false;
                     dep_isExportAllDeclaration := Some true |};;
      (* if (isMatch && opts.exportAllMembers?.[d.source.value]) *)
      match guard_and isMatch (optional_lookup (exportAllMembers opts) source) with
      | Some found =>
          let id := Identifier "__all_exports" in
          let init :=
            AwaitExpression (CallExpression Import
              [StringLiteral
                 (remoteName opts +:+ "/" +:+ getPath source (default [] (alias opts)))]) in
          unshift (VariableDeclaration "const" [variableDeclarator id init]);;
          (* opts.exportAllMembers[d.source.value].map(...) *)
          members ← lift (map_members
                            (λ m, objectProperty (Identifier m) (Identifier m)) found);
          assign index
            (exportNamedDeclaration
               (VariableDeclaration "const"
                  [variableDeclarator (ObjectPattern members)
                     (Identifier "__all_exports")]))
      | None => ret tt
      end
  | _ => ret tt
  end;;
  (* export { bar } from 'foo'; *)
  match d with
  | Some (ExportNamedDeclaration declaration specifiers (Some source)) =>
      isMatch ← lift (isMatchLib source (libs opts) (matchAll opts)
                        (default [] (alias opts)) (default [] (webpackAlias opts)));
      notify opts {| dep_source := source; dep_file := filename;
                     dep_isMatch := isMatch;
                     dep_isExportAllDeclaration := None |};;
      when isMatch (
        memo ← lift (specifiersToProperties specifiers);
        let id := ObjectPattern (properties memo) in
        let init :=
          AwaitExpression (CallExpression Import
            [StringLiteral
               (remoteName opts +:+ "/" +:+ getPath source (default [] (alias opts)))]) in
        unshift (VariableDeclaration "const" [variableDeclarator id init]);;
        (* d.source = null *)
        assign index (ExportNamedDeclaration declaration specifiers None))
  | _ => ret tt
  end.

(** The [while (index >= 0)] loop; [n] is [index + 1]. *)
Fixpoint scan (opts : IOpts) (filename : string) (n : nat) : M Program unit :=
  match n with
  | O => ret tt
  | S index => visit opts filename index;; scan opts filename index
  end.

(** [Program.exit]: the new [path.node.body] and the invocations of the
    callback, or the exception. *)
Definition Program_exit (opts : IOpts) (filename : string)
    (program : list Statement)
    : Result (list Statement * list (Invocation Program)) :=
  let declarations : list Statement := [] in
  match scan opts filename (length program)
          {| tree := {| body := program;
                        variableDeclarations := declarations |};
             calls := [] |} with
  | Ok (_, w) => Ok (variableDeclarations (tree w) ++ body (tree w), calls w)
  | Throw e => Throw e
  end.

(** ** The dynamic-load visitor: [CallExpression.exit] *)

(** [node.arguments[0] = argument] *)
Definition set_first_argument (argument : Expression) : M Expression unit :=
  modify (λ node,
    match node with
    | CallExpression callee arguments =>
        CallExpression callee (<[0 := argument]> arguments)
    | _ => node
    end).

Definition CallExpression_exit (opts : IOpts) (filename : string)
    : M Expression unit :=
  node ← gets (λ node, node);
  match node with
  | CallExpression Import [StringLiteral value] =>
      isMatch ← lift (isMatchLib value (libs opts) (matchAll opts)
                        (default [] (alias opts)) (default [] (webpackAlias opts)));
      notify opts {| dep_source := value; dep_file := filename;
                     dep_isMatch := isMatch;
                     dep_isExportAllDeclaration := None |};;
      when isMatch
        (set_first_argument
           (StringLiteral
              (remoteName opts +:+ "/" +:+ getPath value (default [] (alias opts)))))
  | _ => ret tt
  end.

(** Running the visitor on one call node. *)
Definition visit_call (opts : IOpts) (filename : string) (node : Expression)
    : Result (Expression * list (Invocation Expression)) :=
  match CallExpression_exit opts filename {| tree := node; calls := [] |} with
  | Ok (_, w) => Ok (tree w, calls w)
  | Throw e => Throw e
  end.

(** ** StatementRewriter: the outcome of the pass on one statement

    The pass is described statement by statement: the declarations a
    statement gives rise to, what stays of it in the statement list, and
    what the callback is told about it. [Program_exit_run] below proves that
    the loop computes exactly this. *)

(** The match test of a pass on one module reference. *)
Definition matches (opts : IOpts) (path : string) : Result bool :=
  isMatchLib path (libs opts) (matchAll opts)
    (default [] (alias opts)) (default [] (webpackAlias opts)).

Definition is_match (opts : IOpts) (path : string) : bool :=
  match matches opts path with
  | Ok b => b
  | Throw _ => false
  end.

(** The module reference of a linkage statement. *)
Definition reference (d : Statement) : option string :=
  match d with
  | ImportDeclaration _ source => Some source
  | ExportAllDeclaration source => source
  | ExportNamedDeclaration _ _ source => source
  | _ => None
  end.

(** The exception the visit of a statement ends with, if any: that of the
    match test of its reference; for a matched import or named re-export,
    that of the projection of its specifiers; for a matched blanket
    re-export, the [TypeError] of calling [map] on an inherited property
    of [exportAllMembers]. *)
Definition fault (opts : IOpts) (d : Statement) : option Exception :=
  match d with
  | ImportDeclaration specifiers source
  | ExportNamedDeclaration _ specifiers (Some source) =>
      match matches opts source with
      | Throw e => Some e
      | Ok true =>
          match specifiersToProperties specifiers with
          | Throw e => Some e
          | Ok _ => None
          end
      | Ok false => None
      end
  | ExportAllDeclaration (Some source) =>
      match matches opts source with
      | Throw e => Some e
      | Ok true =>
          match optional_lookup (exportAllMembers opts) source with
          | Some Inherited => Some TypeError
          | _ => None
          end
      | Ok false => None
      end
  | _ => None
  end.

(** The first exception of a scan; the statements are given in scan
    order. *)
Fixpoint first_fault (opts : IOpts) (scanned : list Statement) : option Exception :=
  match scanned with
  | [] => None
  | d :: earlier =>
      match fault opts d with
      | Some e => Some e
      | None => first_fault opts earlier
      end
  end.

Definition remotePath (opts : IOpts) (source : string) : string :=
  remoteName opts +:+ "/" +:+ getPath source (default [] (alias opts)).

(** [await import("<remotePath>")] *)
Definition load (opts : IOpts) (source : string) : Expression :=
  AwaitExpression (CallExpression Import [StringLiteral (remotePath opts source)]).

(** [const <id> = <init>;] *)
Definition const (id init : Expression) : Statement :=
  VariableDeclaration "const" [variableDeclarator id init].

(** [export const { m1, m2, ... } = __all_exports;] *)
Definition export_members (members : list string) : Statement :=
  exportNamedDeclaration
    (const (ObjectPattern (map (λ m, (Identifier m, Identifier m)) members))
           (Identifier "__all_exports")).

(** The member list under which a blanket re-export is rewritten. *)
Definition rewritten_members (opts : IOpts) (source : string)
    : option (list string) :=
  if is_match opts source then
    match optional_lookup (exportAllMembers opts) source with
    | Some (Own members) => Some members
    | _ => None
    end
  else None.

Definition generated (opts : IOpts) (d : Statement) : list Statement :=
  match d with
  | ImportDeclaration specifiers source =>
      if is_match opts source then
        match specifiersToProperties specifiers with
        | Ok memo =>
            match namespaceIdentifier memo, properties memo with
            | Some ns, [] => [const ns (load opts source)]
            | Some ns, _ :: _ =>
                [const ns (load opts source);
                 const (ObjectPattern (properties memo)) ns]
            | None, _ =>
                [const (ObjectPattern (properties memo)) (load opts source)]
            end
        | Throw _ => []
        end
      else []
  | ExportAllDeclaration (Some source) =>
      match rewritten_members opts source with
      | Some _ => [const (Identifier "__all_exports") (load opts source)]
      | None => []
      end
  | ExportNamedDeclaration _ specifiers (Some source) =>
      if is_match opts source then
        match specifiersToProperties specifiers with
        | Ok memo => [const (ObjectPattern (properties memo)) (load opts source)]
        | Throw _ => []
        end
      else []
  | _ => []
  end.

Definition retained (opts : IOpts) (d : Statement) : list Statement :=
  match d with
  | ImportDeclaration _ source => if is_match opts source then [] else [d]
  | ExportAllDeclaration (Some source) =>
      match rewritten_members opts source with
      | Some members => [export_members members]
      | None => [d]
      end
  | ExportNamedDeclaration declaration specifiers (Some source) =>
      if is_match opts source
      then [ExportNamedDeclaration declaration specifiers None]
      else [d]
  | _ => [d]
  end.

Definition reported (opts : IOpts) (filename : string) (d : Statement)
    : list TransformDep :=
  if onTransformDeps opts then
    match d with
    | ImportDeclaration _ source
    | ExportNamedDeclaration _ _ (Some source) =>
        [{| dep_source := source; dep_file := filename;
            dep_isMatch := is_match opts source;
            dep_isExportAllDeclaration := None |}]
    | ExportAllDeclaration (Some source) =>
        [{| dep_source := source; dep_file := filename;
            dep_isMatch := false;
            dep_isExportAllDeclaration := Some true |}]
    | _ => []
    end
  else [].

(** The invocations of one visit: the callback sees the program as it
    stands when the visit begins. *)
Definition invocations (opts : IOpts) (filename : string) (d : Statement)
    (now : Program) : list (Invocation Program) :=
  map (λ dep, {| argument := dep; seen := now |}) (reported opts filename d).

(** The invocations of a scan over [earlier ++ [d]], last statement first;
    the statements are given in scan order. *)
Fixpoint backlog (opts : IOpts) (filename : string) (scanned : list Statement)
    (post declarations : list Statement) : list (Invocation Program) :=
  match scanned with
  | [] => []
  | d :: earlier =>
      invocations opts filename d
        {| body := rev earlier ++ d :: post; variableDeclarations := declarations |}
      ++ backlog opts filename earlier
           (retained opts d ++ post) (generated opts d ++ declarations)
  end.

(** ** Notions the specification is worded in *)

(** [s] begins with [p]. *)
Definition begins_with (s p : string) : Prop := ∃ rest, s = p +:+ rest.

(** [s] contains [needle]. *)
Definition contains (s needle : string) : Prop :=
  ∃ before after, s = before +:+ needle +:+ after.

(** The marker test of wildcard mode: a [node_modules] fragment or the
    monorepo-local marker [umi/packages/]. *)
Definition has_marker (path : string) : Prop :=
  contains path "node_modules" ∨ contains path "umi/packages/".

(** The prefix under which an alias entry is tried by [getAlias]. *)
Definition entry_prefix (entry : string * string) : string :=
  if isJSFile (snd entry) then fst entry else addLastSlash (fst entry).

(** Alias resolution as the specification words it: an entry whose value is
    a source file matches the path exactly, any other entry matches by its
    directory-style prefix; the first matching entry gives the result. *)
Fixpoint resolve_claimed (path : string) (aliasMap : IAlias) : option string :=
  match aliasMap with
  | [] => None
  | (key, value) :: rest =>
      if (if isJSFile value then String.eqb key path
          else Js.startsWith path (addLastSlash key))
      then Some value
      else resolve_claimed path rest
  end.

(** A [libs] entry answers [true] for the path. *)
Definition lib_hits (path : string) (lib : Lib) : bool :=
  match lib with
  | LibString s => String.eqb s path
  | LibRegExp r => test r path
  | LibOther _ => false
  end.

(** A [libs] entry of one of the two supported kinds. *)
Definition supported (lib : Lib) : bool :=
  match lib with
  | LibString _ | LibRegExp _ => true
  | LibOther _ => false
  end.




(** ** Notions for the further properties *)

(** The property a specifier projects to; a namespace specifier gives
    none. *)
Definition property_of (s : Specifier) : option (Expression * Expression) :=
  match s with
  | ImportDefaultSpecifier local => Some (Identifier "default", local)
  | ExportDefaultSpecifier exported => Some (Identifier "default", exported)
  | ExportSpecifier local exported => Some (local, exported)
  | ImportSpecifier local imported => Some (imported, local)
  | ImportNamespaceSpecifier _ | ExportNamespaceSpecifier _ => None
  end.

(** The specifier of [export * as ns from 'x']. *)
Definition is_export_namespace (s : Specifier) : bool :=
  match s with
  | ExportNamespaceSpecifier _ => true
  | _ => false
  end.

(** The binding of a namespace specifier. *)
Definition namespace_of (s : Specifier) : option Expression :=
  match s with
  | ImportNamespaceSpecifier local => Some local
  | _ => None
  end.

(** The entries [isMatchLib] walks in explicit-list mode: [libs], then the
    keys of [alias]. *)
Definition candidates (libs : option TLibs) (alias : IAlias) : list Lib :=
  default [] libs ++ map LibString (map fst alias).

(** An entry that is examined and answers [false]. *)
Definition misses (path : string) (lib : Lib) : Prop :=
  supported lib = true ∧ lib_hits path lib = false.

(** The literal argument of a dynamic-load call of the shape the visitor
    handles: [import("...")] with exactly one argument. *)
Definition dynamic_load_argument (node : Expression) : option string :=
  match node with
  | CallExpression Import [StringLiteral value] => Some value
  | _ => None
  end.

(** The specifiers of an import or a named export. *)
Definition specifiers_of (d : Statement) : list Specifier :=
  match d with
  | ImportDeclaration specifiers _ | ExportNamedDeclaration _ specifiers _ =>
      specifiers
  | _ => []
  end.

(** A blanket re-export whose source is no own property of
    [exportAllMembers] but names a property inherited from
    [Object.prototype]. *)
Definition finds_inherited (opts : IOpts) (d : Statement) : Prop :=
  ∃ source table,
    d = ExportAllDeclaration (Some source) ∧
    exportAllMembers opts = Some table ∧ table !! source = None ∧
    source ∈ Object_prototype_keys.

(** Options under which every match test of a pass is a function of the
    path: wildcard mode, which asks no pattern of [libs], or [libs] whose
    patterns have neither the [g] nor the [y] flag. *)
Definition stateless (opts : IOpts) : Prop :=
  truthy (matchAll opts) = true ∨
  Forall (λ lib, ∀ r, lib = LibRegExp r → keeps_lastIndex r = false)
    (default [] (libs opts)).

(** The same options without the callback. *)
Definition without_callback (opts : IOpts) : IOpts :=
  {| libs := libs opts; matchAll := matchAll opts; remoteName := remoteName opts;
     alias := alias opts; webpackAlias := webpackAlias opts;
     onTransformDeps := false; exportAllMembers := exportAllMembers opts |}.

(** ** Sample inputs *)

Module Sample.

(** Explicit-list mode with [libs = ['pkg']] and [remoteName = 'mf']; the
    callback is supplied and [exportAllMembers] is [{ pkg: ['a', 'b'] }]. *)
Definition opts : IOpts :=
  {| libs := Some [LibString "pkg"]; matchAll := None; remoteName := "mf";
     alias := None; webpackAlias := None; onTransformDeps := true;
     exportAllMembers := Some {[ "pkg" := ["a"; "b"] ]} |}.

(** The same, with a number after ['pkg'] in [libs]. *)
Definition opts_bad_lib : IOpts :=
  {| libs := Some [LibString "pkg"; LibOther 42]; matchAll := None;
     remoteName := "mf"; alias := None; webpackAlias := None;
     onTransformDeps := true;
     exportAllMembers := Some {[ "pkg" := ["a"; "b"] ]} |}.


(** [import Foo from 'pkg'] *)
Definition import_default : Statement :=
  ImportDeclaration [ImportDefaultSpecifier (Identifier "Foo")] "pkg".

(** [import Foo, { a, b } from 'pkg'] *)
Definition import_default_named : Statement :=
  ImportDeclaration
    [ImportDefaultSpecifier (Identifier "Foo");
     ImportSpecifier (Identifier "a") (Identifier "a");
     ImportSpecifier (Identifier "b") (Identifier "b")] "pkg".

(** [import * as ns from 'pkg'] *)
Definition import_namespace : Statement :=
  ImportDeclaration [ImportNamespaceSpecifier (Identifier "ns")] "pkg".

(** [import Default, * as ns from 'pkg'] *)
Definition import_default_namespace : Statement :=
  ImportDeclaration
    [ImportDefaultSpecifier (Identifier "Default");
     ImportNamespaceSpecifier (Identifier "ns")] "pkg".

(** [import local from './local'] *)
Definition import_local : Statement :=
  ImportDeclaration [ImportDefaultSpecifier (Identifier "local")] "./local".


(** [export * from 'pkg'] *)
Definition export_all : Statement := ExportAllDeclaration (Some "pkg").



(** [import("pkg")] and [import("other")] *)
Definition dynamic_load : Expression :=
  CallExpression Import [StringLiteral "pkg"].

(** [await import("mf/pkg")] *)
Definition loaded : Expression :=
  AwaitExpression (CallExpression Import [StringLiteral "mf/pkg"]).

End Sample.

(** ** Sample evaluations *)

Example extname_samples :
  map NodePath.extname
    ["/x/react.js"; "a/b.tsx"; "index."; ".bashrc"; "a.b/c"; "a.b/"; ".."; "x/..";
     "a..js"; ""; "file.jsx//"]
  = [".js"; ".tsx"; "."; ""; ""; ".b"; ""; ""; ".js"; ""; ".jsx"].
Proof. reflexivity. Qed.

Example getPath_samples :
  map (λ p, getPath p [("@", "/src"); ("pkg", "$&-x$$")])
    ["@/a"; "pkg/y"; "other"]
  = ["/src/a"; "pkg-x$/y"; "other"].
Proof. reflexivity. Qed.

(** The scenarios of the specification: a default and named import, a
    namespace import, a default and namespace import, and a blanket
    re-export with its member list. *)
Example scenarios_A_to_D :
  map (λ d, fst <$> (match Program_exit Sample.opts "a.js" [d] with
                     | Ok r => Some r
                     | Throw _ => None
                     end))
    [Sample.import_default_named; Sample.import_namespace;
     Sample.import_default_namespace; Sample.export_all]
  = [Some [const (ObjectPattern
                    [(Identifier "default", Identifier "Foo");
                     (Identifier "a", Identifier "a");
                     (Identifier "b", Identifier "b")])
                 Sample.loaded];
     Some [const (Identifier "ns") Sample.loaded];
     Some [const (Identifier "ns") Sample.loaded;
           const (ObjectPattern [(Identifier "default", Identifier "Default")])
                 (Identifier "ns")];
     Some [const (Identifier "__all_exports") Sample.loaded;
           export_members ["a"; "b"]]].
Proof. reflexivity. Qed.

(** Wildcard mode on a relative path, the tool's own name and a path
    under node_modules. *)
Example scenario_F :
  map (λ p, isMatchLib p None (Some true) [] [])
    ["./local"; "umi"; "/abs/path/node_modules/x"]
  = [Ok false; Ok false; Ok true].
Proof. reflexivity. Qed.

(** ** The loop computes the statement-wise description *)

Ltac run_visitor :=
  unfold mbind, visitor_bind, bind, gets, lift, notify, when, unshift, splice,
    assign, modify, ret; simpl.

Lemma some_lib_message path entries e :
  some_lib path entries = Throw e → e = "Unsupported lib format.".
Proof.
  induction entries as [|lib rest IH]; simpl; [discriminate|].
  destruct lib as [s|r|tag].
  - destruct (String.eqb s path); [discriminate|exact IH].
  - destruct (test r path); [discriminate|exact IH].
  - congruence.
Qed.

Lemma isMatchLib_message path ls mA al wa e :
  isMatchLib path ls mA al wa = Throw e → e = "Unsupported lib format.".
Proof.
  unfold isMatchLib.
  destruct (truthy mA); [|apply some_lib_message].
  repeat match goal with
         | |- context [if ?b then _ else _] => destruct b
         | |- context [match ?o with Some _ => _ | None => _ end] => destruct o
         | |- context [match ?s with EmptyString => _ | String _ _ => _ end] =>
             destruct s
         end; discriminate.
Qed.

Lemma insert_middle {A} (pre : list A) x y post :
  <[length pre := y]> (pre ++ x :: post) = pre ++ y :: post.
Proof. induction pre as [|a pre IH]; simpl; [reflexivity|]. by rewrite IH. Qed.

Lemma visit_ok opts filename pre d post declarations cs :
  fault opts d = None →
  visit opts filename (length pre)
    {| tree := {| body := pre ++ d :: post; variableDeclarations := declarations |};
       calls := cs |}
  = Ok (tt,
        {| tree := {| body := pre ++ retained opts d ++ post;
                      variableDeclarations := generated opts d ++ declarations |};
           calls := cs ++ invocations opts filename d
                      {| body := pre ++ d :: post;
                         variableDeclarations := declarations |} |}).
Proof.
  intros Hd. unfold visit. run_visitor.
  rewrite list_lookup_middle by reflexivity.
  unfold fault, invocations, reported, generated, retained, rewritten_members,
    is_match in *.
  fold (matches opts).
  destruct d as [specifiers source|[source|]|declaration specifiers [source|]|kind ds|tag];
    simpl in *;
    try (destruct (onTransformDeps opts); simpl; rewrite ?app_nil_r; reflexivity).
  - fold (matches opts source).
    destruct (matches opts source) as [[|]|e]; [| |discriminate].
    + destruct (specifiersToProperties specifiers) as [memo|e]; [|discriminate].
      destruct (onTransformDeps opts); simpl;
        (destruct (namespaceIdentifier memo) as [ns|];
         simpl; [destruct (properties memo); simpl|];
         rewrite delete_middle, ?app_nil_r; reflexivity).
    + destruct (onTransformDeps opts); simpl; rewrite ?app_nil_r; reflexivity.
  - fold (matches opts source).
    destruct (matches opts source) as [[|]|e]; [| |discriminate].
    + destruct (optional_lookup (exportAllMembers opts) source) as [[members|]|];
        [| discriminate |];
        destruct (onTransformDeps opts); simpl; rewrite ?insert_middle, ?app_nil_r;
        reflexivity.
    + destruct (onTransformDeps opts); simpl; rewrite ?app_nil_r; reflexivity.
  - fold (matches opts source).
    destruct (matches opts source) as [[|]|e]; [| |discriminate].
    + destruct (specifiersToProperties specifiers) as [memo|e]; [|discriminate].
      destruct (onTransformDeps opts); simpl; rewrite insert_middle, ?app_nil_r;
        reflexivity.
    + destruct (onTransformDeps opts); simpl; rewrite ?app_nil_r; reflexivity.
Qed.

Lemma visit_throw opts filename pre d post declarations cs e :
  fault opts d = Some e →
  visit opts filename (length pre)
    {| tree := {| body := pre ++ d :: post; variableDeclarations := declarations |};
       calls := cs |}
  = Throw e.
Proof.
  intros Hd. unfold visit. run_visitor.
  rewrite list_lookup_middle by reflexivity.
  unfold fault in Hd. fold (matches opts).
  destruct d as [specifiers source|[source|]|declaration specifiers [source|]|kind ds|tag];
    simpl in *; try discriminate;
    fold (matches opts source);
    (destruct (matches opts source) as [[|]|e']; [| discriminate |by injection Hd as ->]).
  - destruct (specifiersToProperties specifiers) as [memo|e']; [discriminate|].
    injection Hd as ->. by destruct (onTransformDeps opts).
  - destruct (optional_lookup (exportAllMembers opts) source) as [[members|]|];
      try discriminate.
    injection Hd as <-. by destruct (onTransformDeps opts).
  - destruct (specifiersToProperties specifiers) as [memo|e']; [discriminate|].
    injection Hd as ->. by destruct (onTransformDeps opts).
Qed.

Lemma scan_ok opts filename pre :
  ∀ post declarations cs,
    first_fault opts (rev pre) = None →
    scan opts filename (length pre)
      {| tree := {| body := pre ++ post; variableDeclarations := declarations |};
         calls := cs |}
    = Ok (tt,
          {| tree := {| body := flat_map (retained opts) pre ++ post;
                        variableDeclarations :=
                          flat_map (generated opts) pre ++ declarations |};
             calls := cs ++ backlog opts filename (rev pre) post declarations |}).
Proof.
  induction pre as [|d pre IH] using rev_ind; intros post declarations cs Hok.
  - simpl. by rewrite app_nil_r.
  - rewrite rev_unit in Hok. simpl in Hok.
    destruct (fault opts d) eqn:Hd; [discriminate|].
    rewrite length_app, Nat.add_comm. simpl.
    unfold mbind, visitor_bind, bind. rewrite <- app_assoc. simpl.
    rewrite (visit_ok _ _ _ _ _ _ _ Hd).
    rewrite (IH _ _ _ Hok).
    rewrite !flat_map_app, rev_unit. simpl.
    by rewrite !app_nil_r, <- !app_assoc, rev_involutive.
Qed.

Lemma scan_throw opts filename pre :
  ∀ post declarations cs e,
    first_fault opts (rev pre) = Some e →
    scan opts filename (length pre)
      {| tree := {| body := pre ++ post; variableDeclarations := declarations |};
         calls := cs |}
    = Throw e.
Proof.
  induction pre as [|d pre IH] using rev_ind; intros post declarations cs e Hbad.
  - discriminate.
  - rewrite rev_unit in Hbad. simpl in Hbad.
    rewrite length_app, Nat.add_comm. simpl.
    unfold mbind, visitor_bind, bind. rewrite <- app_assoc. simpl.
    destruct (fault opts d) as [e'|] eqn:Hd.
    + injection Hbad as ->. by rewrite (visit_throw _ _ _ _ _ _ _ _ Hd).
    + rewrite (visit_ok _ _ _ _ _ _ _ Hd). by apply IH.
Qed.

(** [Program.exit] ends with the exception of the first statement, in scan
    order, whose visit throws; when there is none it returns the generated
    declarations of all statements followed by what is retained of all
    statements, both in source order. *)
Lemma Program_exit_run opts filename program :
  Program_exit opts filename program
  = match first_fault opts (rev program) with
    | Some e => Throw e
    | None =>
        Ok (flat_map (generated opts) program ++ flat_map (retained opts) program,
            backlog opts filename (rev program) [] [])
    end.
Proof.
  unfold Program_exit.
  destruct (first_fault opts (rev program)) as [e|] eqn:E;
    rewrite <- (app_nil_r program) at 2.
  - by rewrite scan_throw with (e := e).
  - rewrite scan_ok by done. simpl. by rewrite !app_nil_r.
Qed.

Lemma first_fault_none opts scanned :
  first_fault opts scanned = None ↔ Forall (λ d, fault opts d = None) scanned.
Proof.
  induction scanned as [|d scanned IH]; simpl; [by split|].
  destruct (fault opts d) eqn:Hd.
  - split; [discriminate|]. intros H. inversion H; congruence.
  - rewrite IH. split; [by constructor|]. intros H. by inversion H.
Qed.

Lemma first_fault_some opts scanned e :
  first_fault opts scanned = Some e ↔
  ∃ before d after,
    scanned = before ++ d :: after ∧ fault opts d = Some e ∧
    Forall (λ s, fault opts s = None) before.
Proof.
  induction scanned as [|d scanned IH]; simpl.
  - split; [discriminate|]. intros (before & ? & ? & H & _). by destruct before.
  - destruct (fault opts d) as [e'|] eqn:Hd.
    + split.
      * intros [= ->]. by exists [], d, scanned.
      * intros (before & d' & after & Heq & He & Hb).
        destruct before as [|b before]; simpl in Heq; injection Heq as -> ->.
        -- congruence.
        -- inversion Hb; congruence.
    + rewrite IH. split.
      * intros (before & d' & after & -> & He & Hb).
        exists (d :: before), d', after. repeat split; [done|by constructor].
      * intros (before & d' & after & Heq & He & Hb).
        destruct before as [|b before]; simpl in Heq; injection Heq as -> ->.
        -- congruence.
        -- inversion Hb; subst. by exists before, d', after.
Qed.

(** ** Strings *)

Lemma append_cons c s t : String c s +:+ t = String c (s +:+ t).
Proof. reflexivity. Qed.

Lemma startsWith_iff s p : Js.startsWith s p = true ↔ begins_with s p.
Proof.
  unfold Js.startsWith, begins_with. revert s.
  induction p as [|a p IH]; intros s; simpl.
  - destruct s; split; eauto.
  - setoid_rewrite append_cons. destruct s as [|b s]; simpl.
    + split; [discriminate|]. intros [rest ?]. discriminate.
    + destruct (ascii_dec a b) as [->|Hne].
      * rewrite IH. split; intros [rest Hrest]; exists rest; congruence.
      * split; [discriminate|]. intros [rest ?]. congruence.
Qed.

Lemma includes_unfold s needle :
  Js.includes s needle
  = Js.startsWith s needle ||
    match s with
    | EmptyString => false
    | String _ s' => Js.includes s' needle
    end.
Proof. by destruct s. Qed.

Lemma includes_iff s needle : Js.includes s needle = true ↔ contains s needle.
Proof.
  unfold contains. split.
  - induction s as [|c s IH]; rewrite includes_unfold, orb_true_iff, startsWith_iff.
    + intros [[rest ->]|]; [|discriminate]. by exists EmptyString, rest.
    + intros [[rest Hrest]|Hs]; [by exists EmptyString, rest|].
      destruct (IH Hs) as (before & after & ->).
      by exists (String c before), after.
  - intros (before & after & ->).
    induction before as [|c before IH]; rewrite includes_unfold, orb_true_iff.
    + left. apply startsWith_iff. by exists after.
    + right. rewrite append_cons. exact IH.
Qed.

Lemma marker_test path :
  test RE_NODE_MODULES path || test RE_UMI_LOCAL_DEV path = true ↔ has_marker path.
Proof. simpl. by rewrite orb_true_iff, !includes_iff. Qed.

Lemma charAt_0_dot path :
  String.eqb (Js.charAt path 0) "." = Js.startsWith path ".".
Proof.
  destruct path as [|c path]; [reflexivity|].
  change (Js.charAt (String c path) 0) with (String c "").
  apply eq_true_iff_eq. rewrite String.eqb_eq, startsWith_iff.
  unfold begins_with. split.
  - intros [= ->]. by exists path.
  - intros [rest Hrest]. rewrite append_cons in Hrest. by injection Hrest as -> _.
Qed.

(** ** PathMatcher: wildcard mode *)

(** C1, as amended. In wildcard mode (matchAll is true), for every path,
    option and alias table: the match test answers false for 'umi' and
    'dumi'; for an absolute path it answers true exactly when the path
    contains 'node_modules' or 'umi/packages/'; for a path beginning with
    '.' it answers false; for any other path it resolves the path through
    webpackAlias, applies the marker test to the resolved value when that
    value is a non-empty string, and answers true when no entry matches or
    the matching entry's value is the empty string. *)
Theorem wildcard_matching path ls al wa :
  (path = "umi" ∨ path = "dumi" →
   isMatchLib path ls (Some true) al wa = Ok false) ∧
  (NodePath.isAbsolute path = true →
   ∃ b, isMatchLib path ls (Some true) al wa = Ok b ∧ (b = true ↔ has_marker path)) ∧
  (begins_with path "." →
   isMatchLib path ls (Some true) al wa = Ok false) ∧
  (path ≠ "umi" → path ≠ "dumi" → NodePath.isAbsolute path = false →
   ¬ begins_with path "." →
   match getAlias path wa with
   | Some resolved =>
       if decide (resolved = "")
       then isMatchLib path ls (Some true) al wa = Ok true
       else ∃ b, isMatchLib path ls (Some true) al wa = Ok b
                 ∧ (b = true ↔ has_marker resolved)
   | None => isMatchLib path ls (Some true) al wa = Ok true
   end).
Proof.
  unfold isMatchLib. simpl truthy. cbv iota.
  rewrite charAt_0_dot.
  repeat split.
  - by intros [-> | ->].
  - intros Habs. destruct path as [|c path]; [discriminate|]. simpl in Habs.
    apply Ascii.eqb_eq in Habs as ->.
    replace (String.eqb (String "/" path) "umi" || String.eqb (String "/" path) "dumi")
      with false by (symmetry; apply orb_false_iff; split; apply String.eqb_neq; discriminate).
    cbn [NodePath.isAbsolute]. rewrite Ascii.eqb_refl.
    eexists. split; [reflexivity|]. apply marker_test.
  - intros [rest ->]. change ("." +:+ rest) with (String "." rest).
    by destruct rest.
  - intros H1 H2 Habs Hdot.
    apply String.eqb_neq in H1, H2. rewrite H1, H2, Habs. cbn [orb].
    destruct (Js.startsWith path ".") eqn:E; [by apply startsWith_iff in E|].
    destruct (getAlias path wa) as [[|c resolved]|]; [done| |done].
    rewrite decide_False by done.
    eexists. split; [reflexivity|]. apply marker_test.
Qed.

Lemma wildcard_matching_witness :
  isMatchLib "umi" None (Some true) [] [] = Ok false ∧
  (∃ b, isMatchLib "/abs/path/node_modules/x" None (Some true) [] [] = Ok b
        ∧ (b = true ↔ has_marker "/abs/path/node_modules/x")) ∧
  isMatchLib "./local" None (Some true) [] [] = Ok false ∧
  (∃ b, isMatchLib "antd/es/button" None (Some true) []
          [("antd", "/repo/node_modules/antd")] = Ok b
        ∧ (b = true ↔ has_marker "/repo/node_modules/antd")).
Proof.
  split; [|split; [|split]].
  - apply (proj1 (wildcard_matching "umi" None [] [])). by left.
  - apply (proj1 (proj2 (wildcard_matching "/abs/path/node_modules/x" None [] []))).
    reflexivity.
  - apply (proj1 (proj2 (proj2 (wildcard_matching "./local" None [] [])))).
    by exists "/local".
  - apply (proj2 (proj2 (proj2 (wildcard_matching "antd/es/button" None []
             [("antd", "/repo/node_modules/antd")])))).
    + discriminate.
    + discriminate.
    + reflexivity.
    + intros H%startsWith_iff. discriminate H.
Defined.

(** C1 as stated fails: with the alias entry foo -> (empty string) the bare
    specifier foo/bar is resolved (to the empty string), the marker test on
    the resolved value fails, and the match test still answers true. *)
Lemma wildcard_matching_counterexample :
  "foo/bar" ≠ "umi" ∧ "foo/bar" ≠ "dumi" ∧
  NodePath.isAbsolute "foo/bar" = false ∧
  ¬ begins_with "foo/bar" "." ∧
  getAlias "foo/bar" [("foo", "")] = Some "" ∧
  ¬ has_marker "" ∧
  isMatchLib "foo/bar" None (Some true) [] [("foo", "")] = Ok true.
Proof.
  repeat split; try discriminate.
  - intros H%startsWith_iff. discriminate H.
  - intros [H%includes_iff|H%includes_iff]; discriminate H.
Qed.

Lemma wildcard_answers path ls al wa :
  ∃ b, isMatchLib path ls (Some true) al wa = Ok b.
Proof.
  unfold isMatchLib. simpl truthy. cbv iota.
  repeat match goal with
         | |- context [if ?b then _ else _] => destruct b
         | |- context [match getAlias ?p ?w with _ => _ end] =>
             destruct (getAlias p w) as [[|? ?]|]
         end; eauto.
Qed.

Lemma reduce_projection_exception specifiers :
  ∀ memo e, reduce project specifiers memo = Throw e → e = TypeError.
Proof.
  induction specifiers as [|s specifiers IH]; intros memo e; [discriminate|].
  simpl. destruct s; simpl; try apply IH. by intros [= <-].
Qed.

Lemma projection_exception specifiers e :
  specifiersToProperties specifiers = Throw e → e = TypeError.
Proof. apply reduce_projection_exception. Qed.

(** In wildcard mode a visit can only end with a [TypeError]. *)
Lemma wildcard_fault opts d e :
  matchAll opts = Some true → fault opts d = Some e → e = TypeError.
Proof.
  intros HmA. unfold fault, matches. rewrite HmA.
  destruct d as [specifiers source|[source|]|declaration specifiers [source|]|kind ds|tag];
    try discriminate;
    (destruct (wildcard_answers source (libs opts) (default [] (alias opts))
                 (default [] (webpackAlias opts))) as [[|] ->]; [|discriminate]).
  - destruct (specifiersToProperties specifiers) as [memo|e'] eqn:E; [discriminate|].
    intros [= <-]. by eapply projection_exception.
  - destruct (optional_lookup (exportAllMembers opts) source) as [[members|]|];
      try discriminate. by intros [= <-].
  - destruct (specifiersToProperties specifiers) as [memo|e'] eqn:E; [discriminate|].
    intros [= <-]. by eapply projection_exception.
Qed.

(** C10. In wildcard mode the outcome of the match test does not depend on
    [libs] or [alias]: two calls that differ only in them agree, the test
    never throws whatever [libs] holds, and so neither a pass nor the
    visit of a call in wildcard mode ever fails with the configuration
    error. *)
Theorem wildcard_ignores_libs_and_alias path ls ls' al al' wa :
  isMatchLib path ls (Some true) al wa = isMatchLib path ls' (Some true) al' wa ∧
  (∃ b, isMatchLib path ls (Some true) al wa = Ok b) ∧
  (∀ opts filename program,
     matchAll opts = Some true →
     Program_exit opts filename program ≠ Throw "Unsupported lib format.") ∧
  (∀ opts filename node,
     matchAll opts = Some true →
     visit_call opts filename node ≠ Throw "Unsupported lib format.").
Proof.
  split; [reflexivity|]. split; [apply wildcard_answers|]. split.
  - intros opts filename program HmA.
    rewrite Program_exit_run.
    destruct (first_fault opts (rev program)) as [e|] eqn:E; [|discriminate].
    apply first_fault_some in E as (before & d & after & _ & Hd & _).
    apply (wildcard_fault _ _ _ HmA) in Hd as ->. discriminate.
  - intros opts filename node HmA.
    unfold visit_call, CallExpression_exit. run_visitor. rewrite HmA.
    destruct node as [name|v| |callee arguments|argument|props|tag]; try discriminate.
    destruct callee; try discriminate.
    destruct arguments as [|a [|a' arguments]]; try discriminate;
      destruct a; try discriminate.
    destruct (wildcard_answers value (libs opts) (default [] (alias opts))
                (default [] (webpackAlias opts))) as [b ->].
    by destruct b, (onTransformDeps opts).
Qed.

Lemma wildcard_ignores_libs_and_alias_witness :
  Program_exit
    {| libs := Some [LibOther 7]; matchAll := Some true; remoteName := "mf";
       alias := None; webpackAlias := None; onTransformDeps := false;
       exportAllMembers := None |}
    "a.js" [ImportDeclaration [] "pkg"] ≠ Throw "Unsupported lib format.".
Proof.
  apply (proj1 (proj2 (proj2 (wildcard_ignores_libs_and_alias "" None None [] [] [])))).
  reflexivity.
Defined.

(** ** PathMatcher: alias resolution *)

Lemma getAlias_cons path key value rest :
  getAlias path ((key, value) :: rest)
  = if Js.startsWith path (entry_prefix (key, value))
    then Some value else getAlias path rest.
Proof. reflexivity. Qed.

(** C8, as amended. [getAlias] tries the entries in iteration order. An
    entry whose replacement value has a source-file extension (.js, .jsx,
    .ts, .tsx) is tried with its key as it stands, any other entry with its
    key made directory-style (a trailing separator appended if absent); in
    both cases the entry matches when the path begins with that text. The
    replacement value of the first matching entry is returned, and null
    when no entry matches. *)
Theorem alias_resolution path wa :
  (∀ value,
     getAlias path wa = Some value ↔
     ∃ before key after,
       wa = before ++ (key, value) :: after ∧
       begins_with path (if isJSFile value then key else addLastSlash key) ∧
       Forall (λ e, ¬ begins_with path (entry_prefix e)) before) ∧
  (getAlias path wa = None ↔
   Forall (λ e, ¬ begins_with path (entry_prefix e)) wa).
Proof.
  induction wa as [|[key value] rest [IHsome IHnone]].
  - split.
    + intros value. split; [discriminate|].
      intros (before & k & after & Heq & _). by destruct before.
    + split; [constructor|reflexivity].
  - rewrite getAlias_cons. split.
    + intros v.
      destruct (Js.startsWith path (entry_prefix (key, value))) eqn:Hhit;
        [apply startsWith_iff in Hhit
        |apply not_true_iff_false in Hhit; rewrite startsWith_iff in Hhit].
      * split.
        -- intros [= <-]. exists [], key, rest. by repeat split.
        -- intros (before & k & after & Heq & Hk & Hbefore).
           destruct before as [|e before]; simpl in Heq.
           ++ congruence.
           ++ injection Heq as <- _. by inversion Hbefore.
      * rewrite IHsome. split.
        -- intros (before & k & after & -> & Hk & Hbefore).
           exists ((key, value) :: before), k, after.
           repeat split; [done|by constructor].
        -- intros (before & k & after & Heq & Hk & Hbefore).
           destruct before as [|e before]; simpl in Heq.
           ++ injection Heq as <- <- <-. done.
           ++ injection Heq as <- ->. inversion Hbefore; subst.
              by exists before, k, after.
    + destruct (Js.startsWith path (entry_prefix (key, value))) eqn:Hhit;
        [apply startsWith_iff in Hhit
        |apply not_true_iff_false in Hhit; rewrite startsWith_iff in Hhit].
      * split; [discriminate|]. intros Hall. by inversion Hall.
      * rewrite IHnone. split; [by constructor|]. intros Hall. by inversion Hall.
Qed.

(** C8 as stated fails: the alias react -> /x/react.js, whose value is a
    source file, is not matched exactly: it also resolves react-dom. *)
Lemma alias_resolution_counterexample :
  isJSFile "/x/react.js" = true ∧
  "react" ≠ "react-dom" ∧
  resolve_claimed "react-dom" [("react", "/x/react.js")] = None ∧
  getAlias "react-dom" [("react", "/x/react.js")] = Some "/x/react.js".
Proof. repeat split. discriminate. Qed.

(** ** ProgramPass *)


Lemma is_match_false opts path : matches opts path = Ok false → is_match opts path = false.
Proof. unfold is_match. by intros ->. Qed.

Lemma Program_exit_ok opts filename program out cs :
  Program_exit opts filename program = Ok (out, cs) →
  out = flat_map (generated opts) program ++ flat_map (retained opts) program ∧
  cs = backlog opts filename (rev program) [] [].
Proof.
  rewrite Program_exit_run.
  destruct (first_fault opts (rev program)); [discriminate|].
  by intros [= <- <-].
Qed.

Lemma Program_exit_ok_iff opts filename program :
  (∃ out cs, Program_exit opts filename program = Ok (out, cs)) ↔
  Forall (λ d, fault opts d = None) program.
Proof.
  split.
  - intros (out & cs & H). rewrite Program_exit_run in H.
    destruct (first_fault opts (rev program)) eqn:E; [discriminate|].
    apply first_fault_none, Forall_rev in E. by rewrite rev_involutive in E.
  - intros Hall. rewrite Program_exit_run.
    apply Forall_rev, first_fault_none in Hall. rewrite Hall. eauto.
Qed.

Lemma Program_exit_no_fault opts filename program out cs :
  Program_exit opts filename program = Ok (out, cs) →
  Forall (λ d, fault opts d = None) program.
Proof. intros H. apply (Program_exit_ok_iff opts filename). eauto. Qed.

Lemma Program_exit_throw_iff opts filename program e :
  Program_exit opts filename program = Throw e ↔
  ∃ pre d post,
    program = pre ++ d :: post ∧ fault opts d = Some e ∧
    Forall (λ s, fault opts s = None) post.
Proof.
  rewrite Program_exit_run.
  destruct (first_fault opts (rev program)) as [e'|] eqn:E.
  - split.
    + intros [= <-]. apply first_fault_some in E as (before & d & after & Hrev & Hd & Hb).
      exists (rev after), d, (rev before). split; [|split; [done|by apply Forall_rev]].
      rewrite <- (rev_involutive program), Hrev, rev_app_distr. simpl.
      by rewrite <- app_assoc.
    + intros (pre & d & post & -> & Hd & Hpost).
      assert (first_fault opts (rev (pre ++ d :: post)) = Some e) as Hff.
      { apply first_fault_some. exists (rev post), d, (rev pre).
        split; [|split; [done|by apply Forall_rev]].
        rewrite rev_app_distr. simpl. by rewrite <- app_assoc. }
      congruence.
  - split; [discriminate|].
    intros (pre & d & post & -> & Hd & Hpost).
    apply first_fault_none in E. rewrite rev_app_distr in E. simpl in E.
    apply Forall_app in E as [E _]. apply Forall_app in E as [_ E].
    inversion E; congruence.
Qed.


Lemma some_lib_supported path entries :
  forallb supported entries = true → ∃ b, some_lib path entries = Ok b.
Proof.
  induction entries as [|lib rest IH]; simpl; [eauto|].
  intros [Hlib Hrest]%andb_true_iff.
  destruct lib as [s|r|tag]; [| |discriminate].
  - destruct (String.eqb s path); eauto.
  - destruct (test r path); eauto.
Qed.

(** What [CallExpression.exit] does on a dynamic-load call with one literal
    argument. *)
Lemma visit_call_run opts filename value :
  let node := CallExpression Import [StringLiteral value] in
  visit_call opts filename node
  = match matches opts value with
    | Throw e => Throw e
    | Ok isMatch =>
        Ok (if isMatch
            then CallExpression Import [StringLiteral (remotePath opts value)]
            else node,
            if onTransformDeps opts
            then [{| argument :=
                       {| dep_source := value; dep_file := filename;
                          dep_isMatch := isMatch;
                          dep_isExportAllDeclaration := None |};
                     seen := node |}]
            else [])
    end.
Proof.
  unfold visit_call, CallExpression_exit, set_first_argument, matches, remotePath.
  run_visitor.
  destruct (isMatchLib value _ _ _ _) as [[|]|e]; [| |done];
    by destruct (onTransformDeps opts).
Qed.

(** ** Configuration errors *)


(** ** Ordering and counting *)









(** ** StatementRewriter *)







(** ** The notification callback *)






(** ** Further properties: the specifier projection *)

Lemma reduce_projection specifiers :
  ∀ memo,
    match reduce project specifiers memo with
    | Ok result =>
        existsb is_export_namespace specifiers = false ∧
        properties result = properties memo ++ omap property_of specifiers ∧
        namespaceIdentifier result
        = match last (omap namespace_of specifiers) with
          | Some ns => Some ns
          | None => namespaceIdentifier memo
          end
    | Throw e => e = TypeError ∧ existsb is_export_namespace specifiers = true
    end.
Proof.
  induction specifiers as [|s specifiers IH]; intros memo; simpl.
  - by rewrite app_nil_r.
  - destruct s as [local|local|local imported|local exported|exported|exported];
      simpl; [| | | | |done];
      match goal with
      | |- context [reduce project specifiers ?m] =>
          specialize (IH m); destruct (reduce project specifiers m) as [result|e]
      end; simpl in IH; try done;
      destruct IH as (Hnone & Hp & Hn); rewrite Hp, Hn, <- ?app_assoc;
      repeat split; try done.
    change (list_omap Specifier Expression namespace_of specifiers)
      with (omap namespace_of specifiers).
    destruct (omap namespace_of specifiers) as [|e l]; [reflexivity|].
    change (last (local :: e :: l)) with (last (e :: l)).
    destruct (last (e :: l)) eqn:El; [reflexivity|].
    by apply last_None in El.
Qed.

Lemma projection_ok specifiers memo :
  specifiersToProperties specifiers = Ok memo →
  properties memo = omap property_of specifiers ∧
  namespaceIdentifier memo = last (omap namespace_of specifiers).
Proof.
  unfold specifiersToProperties. intros H.
  pose proof (reduce_projection specifiers
                {| properties := []; namespaceIdentifier := None |}) as Hred.
  rewrite H in Hred. simpl in Hred. destruct Hred as (_ & -> & ->).
  split; [done|]. by destruct (last (omap namespace_of specifiers)).
Qed.

(** X1. Whenever the projection returns, it has kept the order of the
    specifiers: the properties are those of the specifiers that are not
    namespace specifiers, in encounter order, wherever the namespace
    specifiers stand; the namespace binding is that of the last namespace
    specifier, and there is none exactly when the list has no namespace
    specifier. It returns exactly when the list has no
    [ExportNamespaceSpecifier], and throws a [TypeError] otherwise. *)
Theorem projection_keeps_order specifiers :
  (∀ memo,
     specifiersToProperties specifiers = Ok memo →
     properties memo = omap property_of specifiers ∧
     namespaceIdentifier memo = last (omap namespace_of specifiers) ∧
     length (properties memo) + length (omap namespace_of specifiers)
     = length specifiers) ∧
  ((∃ memo, specifiersToProperties specifiers = Ok memo) ↔
   existsb is_export_namespace specifiers = false) ∧
  (specifiersToProperties specifiers = Throw TypeError ↔
   existsb is_export_namespace specifiers = true).
Proof.
  pose proof (reduce_projection specifiers
                {| properties := []; namespaceIdentifier := None |}) as Hred.
  fold (specifiersToProperties specifiers) in Hred.
  split; [|split].
  - intros memo Hmemo. destruct (projection_ok _ _ Hmemo) as [Hp Hn].
    split; [done|]. split; [done|]. rewrite Hp.
    rewrite Hmemo in Hred. destruct Hred as (Hnone & _).
    clear -Hnone. induction specifiers as [|s specifiers IH]; [reflexivity|].
    destruct s; simpl in *; try discriminate; unfold omap in *;
      specialize (IH Hnone); lia.
  - destruct (specifiersToProperties specifiers) as [memo|e].
    + destruct Hred as (Hnone & _). split; eauto.
    + destruct Hred as (_ & Hsome). split; [by intros (? & ?)|congruence].
  - destruct (specifiersToProperties specifiers) as [memo|e].
    + destruct Hred as (Hnone & _). split; [discriminate|congruence].
    + destruct Hred as (-> & Hsome). by split.
Qed.

Lemma projection_keeps_order_witness :
  properties
    {| properties := [(Identifier "default", Identifier "Foo");
                      (Identifier "a", Identifier "b")];
       namespaceIdentifier := Some (Identifier "ns") |}
  = omap property_of
      [ImportDefaultSpecifier (Identifier "Foo");
       ImportNamespaceSpecifier (Identifier "ns");
       ImportSpecifier (Identifier "b") (Identifier "a")].
Proof.
  apply (proj1 (projection_keeps_order
                  [ImportDefaultSpecifier (Identifier "Foo");
                   ImportNamespaceSpecifier (Identifier "ns");
                   ImportSpecifier (Identifier "b") (Identifier "a")])).
  reflexivity.
Defined.

(** ** Further properties: explicit-list mode *)

Lemma some_lib_true path entries :
  some_lib path entries = Ok true ↔
  ∃ before e after,
    entries = before ++ e :: after ∧ lib_hits path e = true ∧
    Forall (misses path) before.
Proof.
  induction entries as [|lib rest IH]; simpl.
  - split; [discriminate|]. intros (before & e & after & H & _). by destruct before.
  - assert (Hlater :
      (∃ before e after, rest = before ++ e :: after ∧ lib_hits path e = true
                         ∧ Forall (misses path) before) →
      misses path lib →
      ∃ before e after, lib :: rest = before ++ e :: after
                        ∧ lib_hits path e = true ∧ Forall (misses path) before).
    { intros (before & e & after & -> & He & Hb) Hlib.
      exists (lib :: before), e, after. repeat split; [done|by constructor]. }
    assert (Hinv :
      (∃ before e after, lib :: rest = before ++ e :: after
                         ∧ lib_hits path e = true ∧ Forall (misses path) before) →
      lib_hits path lib = true ∨
      (misses path lib ∧
       ∃ before e after, rest = before ++ e :: after ∧ lib_hits path e = true
                         ∧ Forall (misses path) before)).
    { intros (before & e & after & Heq & He & Hb).
      destruct before as [|b before]; simpl in Heq.
      - injection Heq as -> ->. by left.
      - injection Heq as -> ->. inversion Hb; subst. right. split; [done|].
        by exists before, e, after. }
    destruct lib as [s|r|tag]; simpl in *.
    + destruct (String.eqb s path) eqn:E.
      * split; [|done]. intros _. by exists [], (LibString s), rest.
      * rewrite IH. split; [intros H; by apply Hlater|].
        intros [?|[_ ?]]%Hinv; [congruence|done].
    + destruct (test r path) eqn:E.
      * split; [|done]. intros _. by exists [], (LibRegExp r), rest.
      * rewrite IH. split; [intros H; by apply Hlater|].
        intros [?|[_ ?]]%Hinv; [congruence|done].
    + split; [discriminate|].
      intros [?|[[? _] _]]%Hinv; discriminate.
Qed.

Lemma some_lib_false path entries :
  some_lib path entries = Ok false ↔ Forall (misses path) entries.
Proof.
  induction entries as [|lib rest IH]; simpl; [by split|].
  destruct lib as [s|r|tag]; simpl.
  - destruct (String.eqb s path) eqn:E.
    + split; [discriminate|]. intros H. inversion H as [|? ? [_ Hs] ?]; subst.
      simpl in Hs. congruence.
    + rewrite IH. split; [by constructor|]. intros H. by inversion H.
  - destruct (test r path) eqn:E.
    + split; [discriminate|]. intros H. inversion H as [|? ? [_ Hs] ?]; subst.
      simpl in Hs. congruence.
    + rewrite IH. split; [by constructor|]. intros H. by inversion H.
  - split; [discriminate|]. intros H. inversion H as [|? ? [Hs _] ?]; subst.
    discriminate.
Qed.

Lemma some_lib_throw path entries e :
  some_lib path entries = Throw e ↔
  e = "Unsupported lib format." ∧
  ∃ before tag after,
    entries = before ++ LibOther tag :: after ∧ Forall (misses path) before.
Proof.
  induction entries as [|lib rest IH]; simpl.
  - split; [discriminate|]. intros (_ & before & tag & after & H & _).
    by destruct before.
  - assert (Hlater :
      (∃ before tag after, rest = before ++ LibOther tag :: after
                           ∧ Forall (misses path) before) →
      misses path lib →
      ∃ before tag after, lib :: rest = before ++ LibOther tag :: after
                          ∧ Forall (misses path) before).
    { intros (before & tag & after & -> & Hb) Hlib.
      exists (lib :: before), tag, after. split; [done|by constructor]. }
    assert (Hinv :
      (∃ before tag after, lib :: rest = before ++ LibOther tag :: after
                           ∧ Forall (misses path) before) →
      supported lib = false ∨
      (misses path lib ∧
       ∃ before tag after, rest = before ++ LibOther tag :: after
                           ∧ Forall (misses path) before)).
    { intros (before & tag & after & Heq & Hb).
      destruct before as [|b before]; simpl in Heq.
      - injection Heq as -> ->. by left.
      - injection Heq as -> ->. inversion Hb; subst. right. split; [done|].
        by exists before, tag, after. }
    destruct lib as [s|r|tag]; simpl in *.
    + destruct (String.eqb s path) eqn:E.
      * split; [discriminate|].
        intros [_ [?|[[_ ?] _]]%Hinv]; [discriminate|simpl in *; congruence].
      * rewrite IH. split.
        -- intros [-> H]. split; [done|]. by apply Hlater.
        -- intros [-> [?|[_ ?]]%Hinv]; [discriminate|done].
    + destruct (test r path) eqn:E.
      * split; [discriminate|].
        intros [_ [?|[[_ ?] _]]%Hinv]; [discriminate|simpl in *; congruence].
      * rewrite IH. split.
        -- intros [-> H]. split; [done|]. by apply Hlater.
        -- intros [-> [?|[_ ?]]%Hinv]; [discriminate|done].
    + split.
      * intros [= <-]. split; [done|]. by exists [], tag, rest.
      * by intros [-> _].
Qed.

(** X2. In explicit-list mode (matchAll not truthy) the entries of [libs]
    and then the keys of [alias] are examined in order, whatever
    [webpackAlias] holds: the test answers true exactly when some entry
    matches the path (an equal string, a pattern that tests true, an equal
    alias key) and every entry before it is a string or pattern that does
    not; it answers false exactly when all entries are strings or patterns
    that do not match; it throws, always with 'Unsupported lib format.',
    exactly when an entry of another kind is reached before any match. *)
Theorem explicit_list_matching path ls mA al wa :
  truthy mA = false →
  (isMatchLib path ls mA al wa = Ok true ↔
   ∃ before e after,
     candidates ls al = before ++ e :: after ∧ lib_hits path e = true ∧
     Forall (misses path) before) ∧
  (isMatchLib path ls mA al wa = Ok false ↔
   Forall (misses path) (candidates ls al)) ∧
  (∀ e, isMatchLib path ls mA al wa = Throw e ↔
        e = "Unsupported lib format." ∧
        ∃ before tag after,
          candidates ls al = before ++ LibOther tag :: after ∧
          Forall (misses path) before).
Proof.
  intros HmA. unfold isMatchLib. rewrite HmA. fold (candidates ls al).
  split; [apply some_lib_true|]. split; [apply some_lib_false|].
  intros e. apply some_lib_throw.
Qed.

Lemma explicit_list_matching_witness :
  isMatchLib "pkg" (Some [LibString "other"; LibString "pkg"; LibOther 0]) None [] []
  = Ok true.
Proof.
  apply (proj2 (proj1 (explicit_list_matching "pkg"
           (Some [LibString "other"; LibString "pkg"; LibOther 0]) None [] []
           eq_refl))).
  exists [LibString "other"], (LibString "pkg"), [LibOther 0].
  split; [reflexivity|]. split; [reflexivity|].
  constructor; [by split|constructor].
Defined.

(** X3. With string and pattern entries only, the explicit-list test never
    throws, and it answers true exactly when the path equals a string
    entry of [libs], satisfies a pattern entry of [libs], or equals a key
    of [alias]: alias keys are exact-match candidates. *)
Theorem explicit_list_supported path ls mA al wa :
  truthy mA = false →
  forallb supported (default [] ls) = true →
  ∃ b, isMatchLib path ls mA al wa = Ok b ∧
       (b = true ↔
        (∃ lib, lib ∈ default [] ls ∧ lib_hits path lib = true)
        ∨ path ∈ map fst al).
Proof.
  intros HmA Hls. unfold isMatchLib. rewrite HmA.
  induction (default [] ls) as [|lib rest IH]; simpl.
  - clear. induction al as [|[key value] al IH]; simpl.
    + exists false. split; [done|]. split; [discriminate|].
      intros [(lib & []%elem_of_nil & _)|[]%elem_of_nil].
    + destruct (String.eqb key path) eqn:E.
      * apply String.eqb_eq in E as ->. exists true. split; [done|].
        split; [|done]. intros _. right. by left.
      * destruct IH as (b & -> & Hb). exists b. split; [done|]. rewrite Hb.
        apply String.eqb_neq in E.
        split.
        -- intros [(lib & []%elem_of_nil & _)|H]; right; by right.
        -- intros [(lib & []%elem_of_nil & _)|[?|?]%elem_of_cons];
             [congruence|by right].
  - simpl in Hls. apply andb_true_iff in Hls as [Hlib Hrest].
    specialize (IH Hrest). destruct IH as (b & Hb & Hiff).
    destruct lib as [s|r|tag]; [| |discriminate]; simpl.
    + destruct (String.eqb s path) eqn:E.
      * exists true. split; [done|]. split; [|done]. intros _. left.
        exists (LibString s). split; [by left|done].
      * exists b. split; [done|]. rewrite Hiff. split.
        -- intros [(lib & Hin & Hhit)|H]; [left|by right].
           exists lib. split; [by right|done].
        -- intros [(lib & [->|Hin]%elem_of_cons & Hhit)|H]; [|left|by right].
           ++ simpl in Hhit. congruence.
           ++ by exists lib.
    + destruct (test r path) eqn:E.
      * exists true. split; [done|]. split; [|done]. intros _. left.
        exists (LibRegExp r). split; [by left|done].
      * exists b. split; [done|]. rewrite Hiff. split.
        -- intros [(lib & Hin & Hhit)|H]; [left|by right].
           exists lib. split; [by right|done].
        -- intros [(lib & [->|Hin]%elem_of_cons & Hhit)|H]; [|left|by right].
           ++ simpl in Hhit. congruence.
           ++ by exists lib.
Qed.

Lemma explicit_list_supported_witness :
  ∃ b, isMatchLib "@/util" (Some [LibString "pkg"]) None [("@/util", "/src/util")] []
       = Ok b ∧
       (b = true ↔
        (∃ lib, lib ∈ [LibString "pkg"] ∧ lib_hits "@/util" lib = true)
        ∨ "@/util" ∈ map fst [("@/util", "/src/util")]).
Proof.
  exact (explicit_list_supported "@/util" (Some [LibString "pkg"]) None
           [("@/util", "/src/util")] [] eq_refl eq_refl).
Defined.

(** ** Further properties: strings, [getPath], [addLastSlash] *)

Lemma append_nil_r s : s +:+ "" = s.
Proof. induction s as [|c s IH]; [reflexivity|]. by rewrite append_cons, IH. Qed.

Lemma append_assoc a b c : (a +:+ b) +:+ c = a +:+ (b +:+ c).
Proof. induction a as [|x a IH]; [reflexivity|]. by rewrite !append_cons, IH. Qed.

Lemma length_append a b :
  String.length (a +:+ b) = String.length a + String.length b.
Proof. induction a as [|x a IH]; [reflexivity|]. rewrite append_cons. simpl. by rewrite IH. Qed.

Lemma substring_0_0 s : String.substring 0 0 s = "".
Proof. by destruct s. Qed.

Lemma substring_0_length s : String.substring 0 (String.length s) s = s.
Proof. induction s as [|c s IH]; [reflexivity|]. simpl. by rewrite IH. Qed.

Lemma substring_skip a m b :
  String.substring (String.length a) m (a +:+ b) = String.substring 0 m b.
Proof.
  induction a as [|x a IH]; [reflexivity|]. rewrite append_cons. simpl. exact IH.
Qed.

Lemma substring_split s :
  ∀ k, k ≤ String.length s →
       s = String.substring 0 k s +:+ String.substring k (String.length s - k) s.
Proof.
  induction s as [|c s IH]; intros k Hk.
  - simpl in Hk. by replace k with 0 by lia.
  - destruct k as [|k].
    + rewrite substring_0_0. simpl. by rewrite substring_0_length.
    + simpl in *. rewrite append_cons. f_equal. apply IH. lia.
Qed.

Lemma endsWith_iff s p : Js.endsWith s p = true ↔ ∃ r, s = r +:+ p.
Proof.
  unfold Js.endsWith. split.
  - destruct (String.length p <=? String.length s) eqn:Hle; [|discriminate].
    apply Nat.leb_le in Hle. intros Hp%String.eqb_eq.
    exists (String.substring 0 (String.length s - String.length p) s).
    rewrite (substring_split s (String.length s - String.length p)) at 1 by lia.
    replace (String.length s - (String.length s - String.length p))
      with (String.length p) by lia.
    by rewrite Hp.
  - intros [r ->]. rewrite length_append.
    replace (String.length p <=? String.length r + String.length p) with true
      by (symmetry; apply Nat.leb_le; lia).
    replace (String.length r + String.length p - String.length p)
      with (String.length r) by lia.
    rewrite substring_skip, substring_0_length. apply String.eqb_refl.
Qed.

Lemma index_prefix key s :
  Js.startsWith s key = true → String.index 0 key s = Some 0.
Proof.
  unfold Js.startsWith. destruct s as [|c s]; simpl.
  - by destruct key.
  - intros Hp. destruct key as [|k key]; [reflexivity|].
    simpl in *. by rewrite Hp.
Qed.

Lemma replace_prefix key rest value :
  Js.replace (key +:+ rest) key value
  = Js.GetSubstitution key "" rest value +:+ rest.
Proof.
  unfold Js.replace.
  rewrite index_prefix by (apply startsWith_iff; by exists rest).
  rewrite substring_0_0. simpl "+".
  rewrite substring_skip, length_append.
  replace (String.length key + String.length rest - String.length key)
    with (String.length rest) by lia.
  by rewrite substring_0_length.
Qed.

Lemma GetSubstitution_plain matched before after template :
  ¬ contains template "$" →
  Js.GetSubstitution matched before after template = template.
Proof.
  induction template as [|c template IH]; intros Hplain; [reflexivity|].
  assert (Hc : Ascii.eqb c "$" = false).
  { apply not_true_is_false. intros ->%Ascii.eqb_eq.
    apply Hplain. by exists "", template. }
  simpl. rewrite Hc. f_equal. apply IH.
  intros (a & b & ->). apply Hplain. by exists (String c a), b.
Qed.

Lemma getPath_cons path key value rest :
  getPath path ((key, value) :: rest)
  = if Js.startsWith path key then Js.replace path key value
    else getPath path rest.
Proof. reflexivity. Qed.

(** X4. [getPath] is the identity on a path that no key of the alias
    table is a prefix of; in particular on every path when the table is
    empty. *)
Theorem getPath_unaliased path al :
  Forall (λ entry, ¬ begins_with path (fst entry)) al →
  getPath path al = path.
Proof.
  induction 1 as [|[key value] al Hkey _ IH]; [reflexivity|].
  rewrite getPath_cons.
  destruct (Js.startsWith path key) eqn:E; [|exact IH].
  by apply startsWith_iff in E.
Qed.

Lemma getPath_unaliased_witness :
  getPath "lodash/get" [("@", "/src"); ("lodash-es", "/vendor/lodash")]
  = "lodash/get".
Proof.
  apply getPath_unaliased.
  repeat constructor; simpl; intros H%startsWith_iff; discriminate H.
Defined.

Lemma getPath_first key rest value before after :
  Forall (λ entry, ¬ begins_with (key +:+ rest) (fst entry)) before →
  getPath (key +:+ rest) (before ++ (key, value) :: after)
  = Js.GetSubstitution key "" rest value +:+ rest.
Proof.
  induction 1 as [|[k v] before Hk _ IH]; simpl app.
  - rewrite getPath_cons.
    replace (Js.startsWith (key +:+ rest) key) with true
      by (symmetry; apply startsWith_iff; by exists rest).
    apply replace_prefix.
  - rewrite getPath_cons.
    destruct (Js.startsWith (key +:+ rest) k) eqn:E; [|exact IH].
    by apply startsWith_iff in E.
Qed.

(** X5. [getPath] rewrites with the first entry whose key is a prefix of
    the path, by plain prefix (no separator is required after the key):
    the key is replaced by the entry's value, in which [$$], [$&], [$`]
    and [$'] are read as replacement patterns of [String.prototype.replace];
    when the value has no dollar sign the result is the value followed by
    the rest of the path. Later entries are not consulted. *)
Theorem getPath_first_prefix key rest value before after :
  Forall (λ entry, ¬ begins_with (key +:+ rest) (fst entry)) before →
  getPath (key +:+ rest) (before ++ (key, value) :: after)
  = Js.GetSubstitution key "" rest value +:+ rest ∧
  (¬ contains value "$" →
   getPath (key +:+ rest) (before ++ (key, value) :: after) = value +:+ rest).
Proof.
  intros Hbefore. split; [by apply getPath_first|].
  intros Hplain. by rewrite getPath_first, GetSubstitution_plain.
Qed.

Lemma getPath_first_prefix_witness :
  getPath ("foo" +:+ "bar/x") ([("@", "/src")] ++ ("foo", "lib") :: [("foobar", "other")])
  = "lib" +:+ "bar/x".
Proof.
  apply (getPath_first_prefix "foo" "bar/x" "lib" [("@", "/src")] [("foobar", "other")]).
  - repeat constructor. simpl. intros H%startsWith_iff. discriminate H.
  - intros H%includes_iff. discriminate H.
Defined.

Lemma addLastSlash_slash path :
  (∃ r, addLastSlash path = r +:+ "/") ∧ begins_with (addLastSlash path) path.
Proof.
  unfold addLastSlash. destruct (Js.endsWith path "/") eqn:E.
  - split; [by apply endsWith_iff|]. exists "". by rewrite append_nil_r.
  - split; [by exists path|by exists "/"].
Qed.

(** X6. [addLastSlash] gives a text that ends with a slash and begins with
    its argument, changes nothing when the argument already ends with a
    slash, and is idempotent. *)
Theorem addLastSlash_ends_with_slash path :
  (∃ r, addLastSlash path = r +:+ "/") ∧
  begins_with (addLastSlash path) path ∧
  ((∃ r, path = r +:+ "/") → addLastSlash path = path) ∧
  addLastSlash (addLastSlash path) = addLastSlash path.
Proof.
  assert (Hfix : ∀ p, (∃ r, p = r +:+ "/") → addLastSlash p = p).
  { intros p Hp%endsWith_iff. unfold addLastSlash. by rewrite Hp. }
  assert (Hends : ∃ r, addLastSlash path = r +:+ "/").
  { unfold addLastSlash. destruct (Js.endsWith path "/") eqn:E.
    - by apply endsWith_iff.
    - by exists path. }
  split; [exact Hends|]. split; [|split; [apply Hfix|by apply Hfix]].
  unfold addLastSlash. destruct (Js.endsWith path "/").
  - exists "". by rewrite append_nil_r.
  - by exists "/".
Qed.

Lemma addLastSlash_ends_with_slash_witness : addLastSlash "@/" = "@/".
Proof.
  apply (proj1 (proj2 (proj2 (addLastSlash_ends_with_slash "@/")))).
  by exists "@".
Defined.

(** X7. An alias whose replacement value is not a source file resolves
    only paths that go below its key: the path must begin with the key
    followed by a slash. So a path without any slash, even one equal to an
    alias key, is never resolved through such aliases. *)
Theorem directory_alias_needs_slash path wa :
  Forall (λ entry, isJSFile (snd entry) = false) wa →
  (∀ value, getAlias path wa = Some value →
            ∃ key rest, (key, value) ∈ wa ∧ path = addLastSlash key +:+ rest) ∧
  (¬ contains path "/" → getAlias path wa = None).
Proof.
  intros Hdirs.
  assert (Hsome : ∀ value, getAlias path wa = Some value →
            ∃ key rest, (key, value) ∈ wa ∧ path = addLastSlash key +:+ rest).
  { induction Hdirs as [|[key v] wa Hv _ IH]; intros value; [discriminate|].
    rewrite getAlias_cons. unfold entry_prefix. simpl in *. rewrite Hv.
    destruct (Js.startsWith path (addLastSlash key)) eqn:E.
    - intros [= <-]. apply startsWith_iff in E as [rest ->].
      exists key, rest. split; [by left|done].
    - intros (k & rest & Hin & ->)%IH. exists k, rest. split; [by right|done]. }
  split; [exact Hsome|].
  intros Hbare. destruct (getAlias path wa) as [value|] eqn:E; [|reflexivity].
  destruct (Hsome value eq_refl) as (key & rest & _ & ->).
  destruct (proj1 (addLastSlash_slash key)) as [r Hr].
  exfalso. apply Hbare. exists r, rest. by rewrite Hr, append_assoc.
Qed.

Lemma directory_alias_needs_slash_witness :
  getAlias "foo" [("foo", "/dir/foo")] = None.
Proof.
  apply (proj2 (directory_alias_needs_slash "foo" [("foo", "/dir/foo")]
                  ltac:(repeat constructor))).
  intros H%includes_iff. discriminate H.
Defined.

(** ** Further properties: the rewrites *)



(** X9. On a matched dynamic-load call [import("value")] the visitor
    replaces the literal by [remoteName + "/" + getPath(value, alias)] and
    changes nothing else of the call; on an unmatched one it changes
    nothing; it throws exactly when the match test throws. *)
Theorem dynamic_load_rewrite opts filename value :
  (matches opts value = Ok true →
   ∃ cs, visit_call opts filename (CallExpression Import [StringLiteral value])
         = Ok (CallExpression Import
                 [StringLiteral (remoteName opts +:+ "/"
                    +:+ getPath value (default [] (alias opts)))], cs)) ∧
  (matches opts value = Ok false →
   ∃ cs, visit_call opts filename (CallExpression Import [StringLiteral value])
         = Ok (CallExpression Import [StringLiteral value], cs)) ∧
  (∀ e, matches opts value = Throw e ↔
        visit_call opts filename (CallExpression Import [StringLiteral value])
        = Throw e).
Proof.
  pose proof (visit_call_run opts filename value) as Hrun. simpl in Hrun.
  rewrite Hrun. repeat split.
  - intros ->. eauto.
  - intros ->. eauto.
  - by intros ->.
  - clear Hrun. destruct (matches opts value) as [b|e']; [discriminate|by intros [= ->]].
Qed.

Lemma dynamic_load_rewrite_witness :
  ∃ cs, visit_call Sample.opts "a.js" Sample.dynamic_load
        = Ok (CallExpression Import [StringLiteral ("mf" +:+ "/" +:+ "pkg")], cs).
Proof.
  exact (proj1 (dynamic_load_rewrite Sample.opts "a.js" "pkg") eq_refl).
Defined.

(** X10. A call that is not [import] with exactly one string-literal
    argument (another callee, no argument, several arguments, a
    non-literal argument) or a node that is no call is left as it is: the
    match test is not run, so nothing is thrown whatever [libs] holds, and
    the callback is not invoked. *)
Theorem other_calls_untouched opts filename node :
  dynamic_load_argument node = None →
  visit_call opts filename node = Ok (node, []).
Proof.
  intros Hshape. unfold visit_call, CallExpression_exit. run_visitor.
  destruct node as [name|v| |callee arguments|argument|props|tag]; try reflexivity.
  destruct callee; try reflexivity.
  destruct arguments as [|a [|a' arguments]]; try reflexivity;
    destruct a; try reflexivity. discriminate.
Qed.

Lemma other_calls_untouched_witness :
  visit_call Sample.opts_bad_lib "a.js"
    (CallExpression Import [StringLiteral "other"; Identifier "options"])
  = Ok (CallExpression Import [StringLiteral "other"; Identifier "options"], []).
Proof. apply other_calls_untouched. reflexivity. Defined.

(** ** Further properties: the pass as a whole *)

Lemma generated_no_reference opts d r :
  r ∈ generated opts d → reference r = None.
Proof.
  destruct d as [specifiers source|[source|]|declaration specifiers [source|]|kind ds|tag];
    simpl; try by intros ?%elem_of_nil.
  - destruct (is_match opts source); [|by intros ?%elem_of_nil].
    destruct (specifiersToProperties specifiers) as [memo|e];
      [|by intros ?%elem_of_nil].
    destruct (namespaceIdentifier memo) as [ns|]; [destruct (properties memo)|];
      intros H; repeat (apply elem_of_cons in H as [->|H]; [reflexivity|]);
      by apply elem_of_nil in H.
  - destruct (rewritten_members opts source); [|by intros ?%elem_of_nil].
    intros [->|?%elem_of_nil]%elem_of_cons; done.
  - destruct (is_match opts source); [|by intros ?%elem_of_nil].
    destruct (specifiersToProperties specifiers) as [memo|e];
      [|by intros ?%elem_of_nil].
    intros [->|?%elem_of_nil]%elem_of_cons; done.
Qed.

(** A statement the pass has nothing to do with: it gives no declaration,
    is retained as it is, and its visit does not throw. *)
Lemma settled_no_reference opts r :
  reference r = None →
  generated opts r = [] ∧ retained opts r = [r] ∧ fault opts r = None.
Proof.
  intros Hr.
  destruct r as [specifiers source|[source|]|declaration specifiers [source|]|kind ds|tag];
    try discriminate; done.
Qed.

Lemma retained_settled opts d r :
  fault opts d = None → r ∈ retained opts d →
  generated opts r = [] ∧ retained opts r = [r] ∧ fault opts r = None.
Proof.
  intros Hd.
  destruct d as [specifiers source|[source|]|declaration specifiers [source|]|kind ds|tag];
    simpl; try (intros [->|?%elem_of_nil]%elem_of_cons; [|done];
                by apply settled_no_reference).
  - destruct (is_match opts source) eqn:E; [by intros ?%elem_of_nil|].
    intros [->|?%elem_of_nil]%elem_of_cons; [|done]. simpl. by rewrite E.
  - destruct (rewritten_members opts source) eqn:E;
      (intros [->|?%elem_of_nil]%elem_of_cons; [|done]).
    + by apply settled_no_reference.
    + simpl. by rewrite E.
  - destruct (is_match opts source) eqn:E;
      (intros [->|?%elem_of_nil]%elem_of_cons; [|done]).
    + by apply settled_no_reference.
    + simpl. by rewrite E.
Qed.

Lemma settled_program opts filename program :
  Forall (λ r, generated opts r = [] ∧ retained opts r = [r]
               ∧ fault opts r = None) program →
  ∃ cs, Program_exit opts filename program = Ok (program, cs).
Proof.
  intros Hall. rewrite Program_exit_run.
  assert (first_fault opts (rev program) = None) as ->.
  { apply first_fault_none, Forall_rev. eapply Forall_impl; [exact Hall|].
    by intros r (_ & _ & ?). }
  assert (flat_map (generated opts) program = []
          ∧ flat_map (retained opts) program = program) as (-> & ->);
    [|eauto].
  induction Hall as [|r program (Hg & Hr & Ht) _ (IHg & IHr)]; [done|].
  simpl. by rewrite Hg, Hr, IHg, IHr.
Qed.

(** X11. With options under which the match tests are a function of the
    path (wildcard mode, or [libs] without patterns that carry the [g] or
    [y] flag), the pass is idempotent on the statement list: run again
    with the same options on its own output, it completes and returns
    that output unchanged. Generated declarations, cleared re-exports and
    replaced blanket re-exports have no module reference left, and what
    was unmatched stays unmatched. *)
Theorem pass_idempotent opts filename program out cs :
  stateless opts →
  Program_exit opts filename program = Ok (out, cs) →
  ∃ cs', Program_exit opts filename out = Ok (out, cs').
Proof.
  intros _ Hrun.
  pose proof (Program_exit_no_fault _ _ _ _ _ Hrun) as Hok.
  apply Program_exit_ok in Hrun as [-> _]. apply settled_program.
  rewrite Forall_forall in Hok.
  apply Forall_app. split; apply Forall_forall; intros r Hr;
    apply list_elem_of_In, in_flat_map in Hr
      as (d & Hd%list_elem_of_In & Hr%list_elem_of_In).
  - apply settled_no_reference. by eapply generated_no_reference.
  - eapply retained_settled; [|exact Hr]. by apply Hok.
Qed.

Lemma pass_idempotent_witness :
  ∃ cs',
    Program_exit Sample.opts "a.js"
      [const (ObjectPattern [(Identifier "default", Identifier "Foo")]) Sample.loaded;
       const (Identifier "__all_exports") Sample.loaded;
       export_members ["a"; "b"]; Sample.import_local]
    = Ok ([const (ObjectPattern [(Identifier "default", Identifier "Foo")]) Sample.loaded;
           const (Identifier "__all_exports") Sample.loaded;
           export_members ["a"; "b"]; Sample.import_local], cs').
Proof.
  apply (pass_idempotent Sample.opts "a.js"
           [Sample.import_default; Sample.export_all; Sample.import_local]
           _ (backlog Sample.opts "a.js"
                (rev [Sample.import_default; Sample.export_all; Sample.import_local])
                [] [])).
  - right. repeat constructor. discriminate.
  - reflexivity.
Defined.

Lemma fault_iff opts d e :
  fault opts d = Some e ↔
  ∃ path,
    reference d = Some path ∧
    (matches opts path = Throw e ∨
     (matches opts path = Ok true ∧ e = TypeError ∧
      (existsb is_export_namespace (specifiers_of d) = true
       ∨ finds_inherited opts d))).
Proof.
  assert (Hproj : ∀ specifiers,
            match specifiersToProperties specifiers with
            | Ok _ => existsb is_export_namespace specifiers = false
            | Throw e' => e' = TypeError
                          ∧ existsb is_export_namespace specifiers = true
            end).
  { intros specifiers.
    pose proof (reduce_projection specifiers
                  {| properties := []; namespaceIdentifier := None |}) as H.
    fold (specifiersToProperties specifiers) in H.
    destruct (specifiersToProperties specifiers); tauto. }
  unfold finds_inherited. split.
  - intros Hf.
    destruct d as [specifiers source|[source|]|declaration specifiers [source|]|kind ds|tag];
      simpl in Hf; try discriminate; exists source; (split; [reflexivity|]);
      (destruct (matches opts source) as [[|]|e'] eqn:Hm;
       [|discriminate|left; congruence]); right.
    + specialize (Hproj specifiers).
      destruct (specifiersToProperties specifiers) as [memo|e']; [discriminate|].
      destruct Hproj as [-> Hns]. injection Hf as <-. repeat split. by left.
    + unfold optional_lookup in Hf.
      destruct (exportAllMembers opts) as [table|]; [|discriminate].
      destruct (table !! source) as [members|] eqn:Hown; [discriminate|].
      case_bool_decide as Hkey; [|discriminate]. injection Hf as <-.
      repeat split. right. by exists source, table.
    + specialize (Hproj specifiers).
      destruct (specifiersToProperties specifiers) as [memo|e']; [discriminate|].
      destruct Hproj as [-> Hns]. injection Hf as <-. repeat split. by left.
  - intros (path & Href & [Hm|(Hm & -> & [Hns|(s & table & -> & Ht & Hown & Hkey)])]).
    + destruct d as [specifiers source|[source|]|declaration specifiers [source|]|kind ds|tag];
        simpl in Href; try discriminate; injection Href as ->; simpl; by rewrite Hm.
    + destruct d as [specifiers source|[source|]|declaration specifiers [source|]|kind ds|tag];
        simpl in Href, Hns; try discriminate; injection Href as ->; simpl;
        rewrite Hm; specialize (Hproj specifiers);
        (destruct (specifiersToProperties specifiers) as [memo|e'];
         [congruence|by destruct Hproj as [-> _]]).
    + simpl in Href. injection Href as ->. simpl. rewrite Hm.
      unfold optional_lookup. by rewrite Ht, Hown, bool_decide_eq_true_2.
Qed.

(** X12. With options under which the match tests are a function of the
    path, the pass ends with the exception of the first statement, in scan
    order (last in the program), whose visit throws, and completes exactly
    when no visit throws. A visit throws when the match test of the
    statement's reference throws; or, the reference being matched, with a
    [TypeError] when the specifiers of the import or named re-export hold
    an [ExportNamespaceSpecifier], or when the source of the blanket
    re-export is no own property of [exportAllMembers] but the name of an
    inherited one. Statements without a module reference never make the
    pass fail. *)
Theorem pass_fails_iff opts filename program :
  stateless opts →
  (∀ e, Program_exit opts filename program = Throw e ↔
        ∃ pre d post,
          program = pre ++ d :: post ∧ fault opts d = Some e ∧
          Forall (λ s, fault opts s = None) post) ∧
  ((∃ out cs, Program_exit opts filename program = Ok (out, cs)) ↔
   Forall (λ d, fault opts d = None) program) ∧
  (∀ d e,
     fault opts d = Some e ↔
     ∃ path,
       reference d = Some path ∧
       (matches opts path = Throw e ∨
        (matches opts path = Ok true ∧ e = TypeError ∧
         (existsb is_export_namespace (specifiers_of d) = true
          ∨ finds_inherited opts d)))).
Proof.
  intros _. split; [|split].
  - intros e. apply Program_exit_throw_iff.
  - apply Program_exit_ok_iff.
  - apply fault_iff.
Qed.

Lemma pass_fails_iff_witness :
  Program_exit Sample.opts "a.js"
    [Sample.import_default;
     ExportNamedDeclaration None [ExportNamespaceSpecifier (Identifier "ns")]
       (Some "pkg");
     Sample.import_local]
  = Throw TypeError.
Proof.
  apply (proj1 (pass_fails_iff Sample.opts "a.js"
                  [Sample.import_default;
                   ExportNamedDeclaration None
                     [ExportNamespaceSpecifier (Identifier "ns")] (Some "pkg");
                   Sample.import_local]
                  ltac:(right; repeat constructor; discriminate))).
  exists [Sample.import_default],
    (ExportNamedDeclaration None [ExportNamespaceSpecifier (Identifier "ns")]
       (Some "pkg")),
    [Sample.import_local].
  split; [reflexivity|]. split; [reflexivity|]. by repeat constructor.
Defined.

Lemma unmatched_settled opts d path :
  reference d = Some path → matches opts path = Ok false →
  generated opts d = [] ∧ retained opts d = [d] ∧ fault opts d = None.
Proof.
  intros Hr Hm.
  pose proof (is_match_false _ _ Hm) as Hm'.
  destruct d as [specifiers source|[source|]|declaration specifiers [source|]|kind ds|tag];
    simpl in Hr; try discriminate; injection Hr as ->; simpl;
    unfold rewritten_members; by rewrite Hm, Hm'.
Qed.

Lemma wildcard_local path ls al wa :
  begins_with path "." ∨ path = "umi" ∨ path = "dumi" →
  isMatchLib path ls (Some true) al wa = Ok false.
Proof.
  unfold isMatchLib. simpl truthy. cbv iota. rewrite charAt_0_dot.
  intros [[rest ->]|[->| ->]]; [|reflexivity|reflexivity].
  change ("." +:+ rest) with (String "." rest). by destruct rest.
Qed.

(** X14. In wildcard mode a program whose imports and re-exports all
    refer to relative paths (beginning with a dot) or to 'umi' or 'dumi'
    is returned exactly as it was, whatever [libs], the alias tables and
    [exportAllMembers] hold. *)
Theorem wildcard_keeps_local_program opts filename program :
  matchAll opts = Some true →
  Forall (λ d, ∀ path, reference d = Some path →
                       begins_with path "." ∨ path = "umi" ∨ path = "dumi")
    program →
  ∃ cs, Program_exit opts filename program = Ok (program, cs).
Proof.
  intros HmA Hlocal. apply settled_program.
  eapply Forall_impl; [exact Hlocal|]. intros d Hd. simpl in Hd.
  destruct (reference d) as [path|] eqn:Hr; [|by apply settled_no_reference].
  apply (unmatched_settled _ _ path Hr).
  unfold matches. rewrite HmA. apply wildcard_local. by apply Hd.
Qed.

Lemma wildcard_keeps_local_program_witness :
  ∃ cs,
    Program_exit
      {| libs := Some [LibOther 1]; matchAll := Some true; remoteName := "mf";
         alias := None; webpackAlias := None; onTransformDeps := true;
         exportAllMembers := None |}
      "a.js"
      [Sample.import_local; ImportDeclaration [] "umi";
       ExportAllDeclaration (Some "./types")]
    = Ok ([Sample.import_local; ImportDeclaration [] "umi";
           ExportAllDeclaration (Some "./types")], cs).
Proof.
  apply wildcard_keeps_local_program; [reflexivity|].
  repeat first [apply Forall_nil_2 | apply Forall_cons_2]; intros path [= <-].
  - left. by exists "/local".
  - right. by left.
  - left. by exists "/types".
Defined.

Lemma statement_yield opts d :
  fault opts d = None →
  1 ≤ length (generated opts d) + length (retained opts d) ≤ 2.
Proof.
  destruct d as [specifiers source|[source|]|declaration specifiers [source|]|kind ds|tag];
    simpl; try lia.
  - unfold is_match. destruct (matches opts source) as [[|]|e]; [|simpl; lia..].
    destruct (specifiersToProperties specifiers) as [memo|e]; [|discriminate].
    destruct (namespaceIdentifier memo); [destruct (properties memo)|]; simpl; lia.
  - destruct (rewritten_members opts source); simpl; lia.
  - destruct (is_match opts source); [|simpl; lia].
    destruct (specifiersToProperties specifiers); simpl; lia.
Qed.

(** X15. A completed pass never shrinks the program and at most doubles
    it: every statement yields one or two statements of the output (a
    matched import its one or two declarations, a rewritten re-export
    itself and one declaration, any other statement itself). *)
Theorem output_length_bounds opts filename program out cs :
  Program_exit opts filename program = Ok (out, cs) →
  length program ≤ length out ≤ 2 * length program.
Proof.
  intros Hrun. pose proof (Program_exit_no_fault _ _ _ _ _ Hrun) as Hok.
  apply Program_exit_ok in Hrun as [-> _]. rewrite length_app.
  induction Hok as [|d program Hd _ IH]; simpl; [lia|].
  rewrite !length_app. pose proof (statement_yield opts d Hd). lia.
Qed.

Lemma output_length_bounds_witness :
  length [Sample.import_default_namespace; Sample.import_local]
  ≤ length [const (Identifier "ns") Sample.loaded;
            const (ObjectPattern [(Identifier "default", Identifier "Default")])
              (Identifier "ns");
            Sample.import_local]
  ≤ 2 * length [Sample.import_default_namespace; Sample.import_local].
Proof.
  exact (output_length_bounds Sample.opts "a.js"
           [Sample.import_default_namespace; Sample.import_local] _ _ eq_refl).
Defined.

Lemma backlog_silent opts filename scanned :
  Forall (λ d, reference d = None) scanned →
  ∀ post declarations, backlog opts filename scanned post declarations = [].
Proof.
  induction 1 as [|d scanned Hd _ IH]; intros post declarations; [reflexivity|].
  simpl. rewrite IH, app_nil_r. unfold invocations, reported.
  destruct (onTransformDeps opts); [|reflexivity].
  by destruct d as [?|[?|]|? ? [?|]|? ?|?].
Qed.

Lemma no_linkage_run opts filename program :
  Forall (λ d, reference d = None) program →
  Program_exit opts filename program = Ok (program, []).
Proof.
  intros Hnone.
  destruct (settled_program opts filename program) as [cs Hrun].
  { eapply Forall_impl; [exact Hnone|]. intros d Hd. by apply settled_no_reference. }
  rewrite Hrun. f_equal. f_equal.
  apply Program_exit_ok in Hrun as [_ ->].
  apply backlog_silent. by apply Forall_rev.
Qed.

(** X16. A program without imports and without re-exports from a source
    (local exports, declarations, any other statement) goes through the
    pass unchanged: nothing is generated, the callback is not invoked and
    nothing is thrown, even when [libs] holds an entry of an unsupported
    kind. *)
Theorem no_linkage_no_effect opts filename program :
  Forall (λ d, reference d = None) program →
  Program_exit opts filename program = Ok (program, []).
Proof. apply no_linkage_run. Qed.

Lemma no_linkage_no_effect_witness :
  Program_exit Sample.opts_bad_lib "a.js"
    [OtherStatement 0;
     ExportNamedDeclaration None [ExportSpecifier (Identifier "a") (Identifier "a")] None;
     const (Identifier "x") (Identifier "y")]
  = Ok ([OtherStatement 0;
         ExportNamedDeclaration None
           [ExportSpecifier (Identifier "a") (Identifier "a")] None;
         const (Identifier "x") (Identifier "y")], []).
Proof. apply no_linkage_no_effect. by repeat constructor. Defined.

Lemma some_lib_alias_key path entries keys :
  forallb supported entries = true → path ∈ keys →
  some_lib path (entries ++ map LibString keys) = Ok true.
Proof.
  intros Hsup Hkey. induction entries as [|lib rest IH]; simpl.
  - clear Hsup. induction Hkey as [path keys|path k keys _ IH]; simpl.
    + by rewrite String.eqb_refl.
    + by destruct (String.eqb k path).
  - simpl in Hsup. apply andb_true_iff in Hsup as [Hlib Hrest].
    destruct lib as [s|r|tag]; [| |discriminate].
    + destruct (String.eqb s path); [done|by apply IH].
    + destruct (test r path); [done|by apply IH].
Qed.

(** X13. Alias keys work both as match candidates and as rewrite rules:
    in explicit-list mode with string and pattern entries only, a dynamic
    load of a path that equals a key of [alias] is always rewritten, and
    when no earlier key is a prefix of that path and the value has no
    dollar sign, the new literal is [remoteName + "/" + value]. *)
Theorem alias_key_is_rewritten opts filename key value before after :
  truthy (matchAll opts) = false →
  forallb supported (default [] (libs opts)) = true →
  alias opts = Some (before ++ (key, value) :: after) →
  Forall (λ entry, ¬ begins_with key (fst entry)) before →
  ¬ contains value "$" →
  ∃ cs, visit_call opts filename (CallExpression Import [StringLiteral key])
        = Ok (CallExpression Import [StringLiteral (remoteName opts +:+ "/" +:+ value)],
              cs).
Proof.
  intros HmA Hsup Hal Hbefore Hplain.
  pose proof (visit_call_run opts filename key) as Hrun. simpl in Hrun.
  assert (Hmatch : matches opts key = Ok true).
  { unfold matches, isMatchLib. rewrite HmA, Hal. simpl default.
    apply some_lib_alias_key; [done|].
    rewrite map_app. apply elem_of_app. right. by left. }
  assert (Hpath : getPath key (before ++ (key, value) :: after) = value).
  { rewrite <- (append_nil_r key) at 1.
    rewrite getPath_first by (by rewrite append_nil_r).
    by rewrite GetSubstitution_plain, append_nil_r. }
  rewrite Hrun, Hmatch. unfold remotePath. rewrite Hal. simpl default.
  rewrite Hpath. eauto.
Qed.

Lemma alias_key_is_rewritten_witness :
  ∃ cs,
    visit_call
      {| libs := None; matchAll := None; remoteName := "mf";
         alias := Some [("react", "react/index")]; webpackAlias := None;
         onTransformDeps := false; exportAllMembers := None |}
      "a.js" (CallExpression Import [StringLiteral "react"])
    = Ok (CallExpression Import [StringLiteral ("mf" +:+ "/" +:+ "react/index")], cs).
Proof.
  apply (alias_key_is_rewritten
           {| libs := None; matchAll := None; remoteName := "mf";
              alias := Some [("react", "react/index")]; webpackAlias := None;
              onTransformDeps := false; exportAllMembers := None |}
           "a.js" "react" "react/index" [] []).
  - reflexivity.
  - reflexivity.
  - reflexivity.
  - constructor.
  - intros H%includes_iff. discriminate H.
Defined.

(** ** Further properties: [isJSFile] *)

Lemma get_append_r a i b :
  String.get (String.length a + i) (a +:+ b) = String.get i b.
Proof. induction a as [|x a IH]; [reflexivity|]. rewrite append_cons. exact IH. Qed.

Lemma extname_loop_S path i startDot startPart end_ matchedSlash preDotState :
  NodePath.extname_loop path (S i) startDot startPart end_ matchedSlash preDotState
  = match String.get i path with
    | None => (startDot, startPart, end_, preDotState)
    | Some code =>
        if Ascii.eqb code "/" then
          if negb matchedSlash then
            (startDot, (Z.of_nat i + 1)%Z, end_, preDotState)
          else
            NodePath.extname_loop path i startDot startPart end_ matchedSlash
              preDotState
        else
          let '(matchedSlash, end_) :=
            if (end_ =? -1)%Z then (false, (Z.of_nat i + 1)%Z)
            else (matchedSlash, end_) in
          if Ascii.eqb code "." then
            if (startDot =? -1)%Z then
              NodePath.extname_loop path i (Z.of_nat i) startPart end_ matchedSlash
                preDotState
            else if negb (preDotState =? 1)%Z then
              NodePath.extname_loop path i startDot startPart end_ matchedSlash 1%Z
            else
              NodePath.extname_loop path i startDot startPart end_ matchedSlash
                preDotState
          else if negb (startDot =? -1)%Z then
            NodePath.extname_loop path i startDot startPart end_ matchedSlash (-1)%Z
          else
            NodePath.extname_loop path i startDot startPart end_ matchedSlash
              preDotState
    end.
Proof. reflexivity. Qed.

(** A character that is neither a separator nor a dot. *)
Lemma plain_char code :
  code ≠ "/"%char ∧ code ≠ "."%char →
  Ascii.eqb code "/" = false ∧ Ascii.eqb code "." = false.
Proof. intros [H1 H2]. split; by apply Ascii.eqb_neq. Qed.

(** Before any dot has been seen, plain characters only fix [end]. *)
Lemma extname_loop_name path L k end_ matchedSlash :
  end_ ≠ (-1)%Z →
  (∀ j, j < k → ∃ code, String.get (L + j) path = Some code
                        ∧ code ≠ "/"%char ∧ code ≠ "."%char) →
  NodePath.extname_loop path (L + k) (-1) 0 end_ matchedSlash 0
  = NodePath.extname_loop path L (-1) 0 end_ matchedSlash 0.
Proof.
  intros Hend. induction k as [|k IH]; intros Hplain.
  - by rewrite Nat.add_0_r.
  - rewrite Nat.add_succ_r, extname_loop_S.
    destruct (Hplain k ltac:(lia)) as (code & -> & Hcode).
    destruct (plain_char _ Hcode) as [-> ->].
    apply Z.eqb_neq in Hend. rewrite Hend. simpl.
    apply IH. intros j Hj. apply Hplain. lia.
Qed.

(** Once a dot, an end and a character before the dot have been seen, the
    rest of the scan keeps the dot and the end. *)
Lemma extname_loop_settled path n :
  ∀ startDot startPart end_ preDotState,
    startDot ≠ (-1)%Z → end_ ≠ (-1)%Z → preDotState ≠ 0%Z →
    ∃ startPart' preDotState',
      NodePath.extname_loop path n startDot startPart end_ false preDotState
      = (startDot, startPart', end_, preDotState') ∧ preDotState' ≠ 0%Z.
Proof.
  induction n as [|i IH]; intros startDot startPart end_ preDotState Hd He Hp.
  - simpl. eauto.
  - rewrite extname_loop_S. destruct (String.get i path) as [code|]; [|eauto].
    destruct (Ascii.eqb code "/"); [simpl; eauto|].
    apply Z.eqb_neq in Hd as Hd', He as He'. rewrite Hd', He'. simpl.
    destruct (Ascii.eqb code ".").
    + destruct (preDotState =? 1)%Z; simpl; by apply IH.
    + by apply IH.
Qed.

Lemma extname_of_extension base c name :
  c ≠ "/"%char → c ≠ "."%char → name ≠ "" →
  (∀ j code, String.get j name = Some code → code ≠ "/"%char ∧ code ≠ "."%char) →
  NodePath.extname (base +:+ String c (String "." name)) = String "." name.
Proof.
  intros Hc1 Hc2 Hname Hplain.
  set (path := base +:+ String c (String "." name)).
  assert (Hget : ∀ j, String.get (String.length base + j) path
                      = String.get j (String c (String "." name))).
  { intros j. apply get_append_r. }
  assert (Hlen : String.length path = S (S (String.length base)) + String.length name).
  { unfold path. rewrite length_append. simpl. lia. }
  unfold NodePath.extname. rewrite Hlen.
  destruct name as [|x name]; [done|]. simpl String.length.
  rewrite Nat.add_succ_r, extname_loop_S.
  replace (S (S (String.length base)) + String.length name)
    with (String.length base + (2 + String.length name)) by lia.
  rewrite Hget.
  change (String.get (2 + String.length name) (String c (String "." (String x name))))
    with (String.get (String.length name) (String x name)).
  destruct (String.get (String.length name) (String x name)) as [code|] eqn:Hlast.
  2:{ exfalso. clear -Hlast. revert x Hlast.
      induction name as [|y name IH]; intros x; [discriminate|]. simpl. apply IH. }
  destruct (plain_char _ (Hplain _ _ Hlast)) as [-> ->]. simpl.
  replace (String.length base + S (S (String.length name)))
    with (S (S (String.length base)) + String.length name) by lia.
  rewrite extname_loop_name; [|lia|].
  2:{ intros j Hj.
      replace (S (S (String.length base)) + j) with (String.length base + (2 + j)) by lia.
      rewrite Hget.
      change (String.get (2 + j) (String c (String "." (String x name))))
        with (String.get j (String x name)).
      destruct (String.get j (String x name)) as [code'|] eqn:Hj'.
      - exists code'. split; [done|]. by eapply Hplain.
      - exfalso. clear -Hj Hj'. revert x j Hj Hj'.
        induction name as [|y name IH]; intros x [|j] Hj; simpl in *;
          try discriminate; try lia.
        apply IH. lia. }
  assert (Hdot : String.get (S (String.length base)) path = Some "."%char).
  { replace (S (String.length base)) with (String.length base + 1) by lia.
    by rewrite Hget. }
  assert (Hc : String.get (String.length base) path = Some c).
  { replace (String.length base) with (String.length base + 0) at 1 by lia.
    by rewrite Hget. }
  set (E := (Z.of_nat (S (S (String.length base)) + String.length name) + 1)%Z).
  assert (HE : (E =? -1)%Z = false) by (apply Z.eqb_neq; lia).
  assert (HD : (Z.of_nat (S (String.length base)) =? -1)%Z = false)
    by (apply Z.eqb_neq; lia).
  rewrite extname_loop_S, Hdot.
  change (Ascii.eqb "." "/") with false. change (Ascii.eqb "." ".") with true.
  rewrite HE. change ((-1 =? -1)%Z) with true. cbv beta iota zeta.
  rewrite extname_loop_S, Hc.
  destruct (plain_char c (conj Hc1 Hc2)) as [-> ->].
  rewrite HE, HD. cbv beta iota zeta. change (negb false) with true. cbv iota.
  destruct (extname_loop_settled path (String.length base)
              (Z.of_nat (S (String.length base))) 0%Z E (-1)%Z)
    as (sp & pds & -> & Hpds); [lia|lia|lia|].
  rewrite HE, HD.
  replace (pds =? 0)%Z with false by (symmetry; apply Z.eqb_neq; lia).
  replace (Z.of_nat (S (String.length base)) =? E - 1)%Z
    with false by (symmetry; apply Z.eqb_neq; lia).
  rewrite andb_false_r. simpl orb. cbv iota.
  unfold Js.slice.
  replace (Z.to_nat (Z.of_nat (S (String.length base))))
    with (String.length (base +:+ String c "")) by (rewrite length_append; simpl; lia).
  replace (Z.to_nat (E - Z.of_nat (S (String.length base))))
    with (String.length (String "." (String x name))) by (simpl; lia).
  unfold path.
  replace (base +:+ String c (String "." (String x name)))
    with ((base +:+ String c "") +:+ String "." (String x name))
    by (by rewrite append_assoc).
  by rewrite substring_skip, substring_0_length.
Qed.

Lemma get_contains s :
  ∀ i code, String.get i s = Some code → contains s (String code "").
Proof.
  induction s as [|x s IH]; intros i code; [discriminate|].
  destruct i as [|i]; simpl.
  - intros [= ->]. by exists "", s.
  - intros (a & b & ->)%IH. by exists (String x a), b.
Qed.

Lemma extname_loop_no_dot path n :
  ¬ contains path "." →
  ∀ startPart end_ matchedSlash preDotState,
    ∃ startPart' end' preDotState',
      NodePath.extname_loop path n (-1) startPart end_ matchedSlash preDotState
      = ((-1)%Z, startPart', end', preDotState').
Proof.
  intros Hnodot.
  induction n as [|i IH]; intros startPart end_ matchedSlash preDotState.
  - simpl. eauto.
  - rewrite extname_loop_S.
    destruct (String.get i path) as [code|] eqn:Hget; [|eauto].
    destruct (Ascii.eqb code "/"); [destruct (negb matchedSlash); eauto|].
    assert (Ascii.eqb code "." = false) as ->.
    { apply Ascii.eqb_neq. intros ->. apply Hnodot. by eapply get_contains. }
    change ((-1 =? -1)%Z) with true. change (negb true) with false.
    destruct (end_ =? -1)%Z; cbv beta iota zeta; apply IH.
Qed.

(** X17. A path that ends in a dot and an extension, after a character
    that is neither a dot nor a separator, is a JS file exactly when the
    extension is one of js, jsx, ts and tsx; what stands before (the
    directories, further dots in the file name) does not matter. *)
Theorem isJSFile_by_extension base c name :
  c ≠ "/"%char → c ≠ "."%char → name ≠ "" →
  (∀ j code, String.get j name = Some code → code ≠ "/"%char ∧ code ≠ "."%char) →
  isJSFile (base +:+ String c (String "." name)) = true
  ↔ name ∈ ["js"; "jsx"; "ts"; "tsx"].
Proof.
  intros Hc1 Hc2 Hname Hplain. unfold isJSFile.
  rewrite extname_of_extension by done.
  simpl existsb. rewrite !orb_true_iff, !String.eqb_eq, !elem_of_cons, elem_of_nil.
  split.
  - intros [->|[->|[->|[->|[=]]]]]; tauto.
  - intros [->|[->|[->|[->|[]]]]]; tauto.
Qed.

Lemma isJSFile_by_extension_witness :
  isJSFile ("/repo/node_modules/react/inde" +:+ String "x" (String "." "js")) = true.
Proof.
  apply (isJSFile_by_extension "/repo/node_modules/react/inde" "x" "js").
  - discriminate.
  - discriminate.
  - discriminate.
  - intros [|[|j]] code; simpl; intros [= <-]; split; discriminate.
  - by left.
Defined.

(** X18. A path without any dot is never a JS file: an alias whose
    replacement value has no dot is always tried as a directory-style
    prefix. *)
Theorem isJSFile_needs_dot path :
  ¬ contains path "." → isJSFile path = false.
Proof.
  intros Hnodot. unfold isJSFile, NodePath.extname.
  destruct (extname_loop_no_dot path (String.length path) Hnodot 0%Z (-1)%Z true 0%Z)
    as (sp & e & pds & ->).
  reflexivity.
Qed.

Lemma isJSFile_needs_dot_witness : isJSFile "/repo/src/js" = false.
Proof.
  apply isJSFile_needs_dot. intros H%includes_iff. discriminate H.
Defined.

(** ** Configuration errors *)





